(** * SoundEngine: the generative audio sequencer of [script.js]

    A shallow embedding of the [SoundEngine] class (script.js, lines 4-296)
    together with the part of the browser it talks to: the Web Audio node
    graph, [Math.random], [Date.now] and the [setTimeout] timer queue; of
    the code of the page that calls the engine (the autostart of the music
    and the mute button of [Cube3DResume]); and of the generator of the
    cube's scramble sequence.

    JavaScript numbers that carry times, gains and frequencies are modelled
    as exact rationals ([Q]); [Date.now()] and timer delays are integer
    milliseconds ([Z]).  Methods are computations in a state monad over
    [World], so that the definitions can be read next to the source.  The
    curve of a [setTargetAtTime] ramp, which the browser computes, is taken
    over the real numbers.

    The file has three parts: the embedding of the code and of the event
    loop, the definitions the statements need, and the lemmas and theorems. *)

From Stdlib Require Import String.
From Stdlib Require Import ZArith QArith Qround List Bool Arith Lia.
From Stdlib Require Import Reals Qreals Lra.
Import ListNotations.

Set Implicit Arguments.
Open Scope Q_scope.

(* ================================================================== *)
(** ** Web Audio data model *)
(* ================================================================== *)

(** Calls made on an [AudioParam], in the order the program issues them. *)
Inductive AutomationEvent : Type :=
| SetValueAtTime (v startTime : Q)
| LinearRampToValueAtTime (v endTime : Q)
| ExponentialRampToValueAtTime (v endTime : Q)
| SetTargetAtTime (target startTime timeConstant : Q).

Record AudioParam : Type := mkParam {
  value : Q;
  events : list AutomationEvent }.

Inductive NodeKind : Type :=
| Destination | GainNode | OscillatorNode | BiquadFilterNode | BufferSourceNode.

(** One record serves every node kind.  [type] is the [type] property of an
    oscillator or a filter (empty on the other kinds), [param] the single
    AudioParam the program touches on that kind ([gain.gain],
    [osc.frequency], [filter.frequency]), [startAt] and [stopAt] the
    arguments of [start] and [stop]. *)
Record AudioNode : Type := mkNode {
  kind : NodeKind;
  type : string;
  param : AudioParam;
  buffer : option (list Q);
  startAt : option Q;
  stopAt : option Q }.

(** A value of [Math.random()]: a rational in the half-open unit interval. *)
Definition in_unit (q : Q) : bool := Qle_bool 0 q && negb (Qle_bool 1 q).

Record Draw : Type := mkDraw {
  draw : Q;
  draw_ok : in_unit draw = true }.

(** The browser and the engine object.  Nodes are named by their position in
    [nodes]; [edges] are the [connect] calls (source, target).  [pending] is
    the timer queue restricted to the sequencer's [loop] callbacks: every
    closure [loop] captures the same engine and the same constants, so a
    pending callback is identified by its handle and due time. *)
Record World : Type := mkWorld {
  Date_now : Z;
  random : nat -> Draw;
  rpos : nat;
  next_timer : nat;
  pending : list (nat * Z);
  currentTime : Q;
  sampleRate : nat;
  nodes : list AudioNode;
  edges : list (nat * nat);
  masterGain : nat;
  musicGain : nat;
  muted : bool;
  isPlaying : bool;
  timerIDs : list nat }.

Definition set_Date_now (v : Z) (w : World) : World :=
  mkWorld v (random w) (rpos w) (next_timer w) (pending w) (currentTime w) (sampleRate w)
          (nodes w) (edges w) (masterGain w) (musicGain w) (muted w) (isPlaying w) (timerIDs w).
Definition set_rpos (v : nat) (w : World) : World :=
  mkWorld (Date_now w) (random w) v (next_timer w) (pending w) (currentTime w) (sampleRate w)
          (nodes w) (edges w) (masterGain w) (musicGain w) (muted w) (isPlaying w) (timerIDs w).
Definition set_next_timer (v : nat) (w : World) : World :=
  mkWorld (Date_now w) (random w) (rpos w) v (pending w) (currentTime w) (sampleRate w)
          (nodes w) (edges w) (masterGain w) (musicGain w) (muted w) (isPlaying w) (timerIDs w).
Definition set_pending (v : list (nat * Z)) (w : World) : World :=
  mkWorld (Date_now w) (random w) (rpos w) (next_timer w) v (currentTime w) (sampleRate w)
          (nodes w) (edges w) (masterGain w) (musicGain w) (muted w) (isPlaying w) (timerIDs w).
Definition set_currentTime (v : Q) (w : World) : World :=
  mkWorld (Date_now w) (random w) (rpos w) (next_timer w) (pending w) v (sampleRate w)
          (nodes w) (edges w) (masterGain w) (musicGain w) (muted w) (isPlaying w) (timerIDs w).
Definition set_nodes (v : list AudioNode) (w : World) : World :=
  mkWorld (Date_now w) (random w) (rpos w) (next_timer w) (pending w) (currentTime w) (sampleRate w)
          v (edges w) (masterGain w) (musicGain w) (muted w) (isPlaying w) (timerIDs w).
Definition set_edges (v : list (nat * nat)) (w : World) : World :=
  mkWorld (Date_now w) (random w) (rpos w) (next_timer w) (pending w) (currentTime w) (sampleRate w)
          (nodes w) v (masterGain w) (musicGain w) (muted w) (isPlaying w) (timerIDs w).
Definition set_masterGain (v : nat) (w : World) : World :=
  mkWorld (Date_now w) (random w) (rpos w) (next_timer w) (pending w) (currentTime w) (sampleRate w)
          (nodes w) (edges w) v (musicGain w) (muted w) (isPlaying w) (timerIDs w).
Definition set_musicGain (v : nat) (w : World) : World :=
  mkWorld (Date_now w) (random w) (rpos w) (next_timer w) (pending w) (currentTime w) (sampleRate w)
          (nodes w) (edges w) (masterGain w) v (muted w) (isPlaying w) (timerIDs w).
Definition set_muted (v : bool) (w : World) : World :=
  mkWorld (Date_now w) (random w) (rpos w) (next_timer w) (pending w) (currentTime w) (sampleRate w)
          (nodes w) (edges w) (masterGain w) (musicGain w) v (isPlaying w) (timerIDs w).
Definition set_isPlaying (v : bool) (w : World) : World :=
  mkWorld (Date_now w) (random w) (rpos w) (next_timer w) (pending w) (currentTime w) (sampleRate w)
          (nodes w) (edges w) (masterGain w) (musicGain w) (muted w) v (timerIDs w).
Definition set_timerIDs (v : list nat) (w : World) : World :=
  mkWorld (Date_now w) (random w) (rpos w) (next_timer w) (pending w) (currentTime w) (sampleRate w)
          (nodes w) (edges w) (masterGain w) (musicGain w) (muted w) (isPlaying w) v.

(* ================================================================== *)
(** ** The state monad *)
(* ================================================================== *)

Definition M (A : Type) : Type := World -> A * World.

Definition ret {A} (a : A) : M A := fun w => (a, w).
Definition bind {A B} (m : M A) (k : A -> M B) : M B :=
  fun w => let (a, w1) := m w in k a w1.
Definition get {A} (f : World -> A) : M A := fun w => (f w, w).
Definition modify (f : World -> World) : M unit := fun w => (tt, f w).
Definition exec {A} (m : M A) (w : World) : World := snd (m w).

Notation "x <- m ;; k" := (bind m (fun x => k))
  (at level 61, m at next level, right associativity).
Notation "m ;;; k" := (bind m (fun _ => k))
  (at level 61, right associativity).

(** [list.forEach((x, i) => f x i)] *)
Fixpoint forEach_from {A} (i : nat) (l : list A) (f : A -> nat -> M unit) : M unit :=
  match l with
  | [] => ret tt
  | x :: r => f x i ;;; forEach_from (S i) r f
  end.
Definition forEach {A} (l : list A) (f : A -> nat -> M unit) : M unit :=
  forEach_from 0 l f.

(** [for (let i = 0; i < count; i++) body(i)] *)
Definition for_count (count : nat) (body : nat -> M unit) : M unit :=
  forEach (seq 0 count) (fun i _ => body i).

(* ================================================================== *)
(** ** Browser primitives *)
(* ================================================================== *)

Definition Math_random : M Q :=
  fun w => (draw (random w (rpos w)), set_rpos (S (rpos w)) w).

Definition Math_floor (q : Q) : Z := Qfloor q.

(** [setTimeout(loop, delay)]: a fresh handle, due [delay] ms from now. *)
Definition setTimeout (delay : Z) : M nat :=
  fun w => (next_timer w,
            set_pending (pending w ++ [(next_timer w, (Date_now w + delay)%Z)])
                        (set_next_timer (S (next_timer w)) w)).

Definition clearTimeout (id : nat) : M unit :=
  modify (fun w => set_pending
                     (filter (fun p => negb (Nat.eqb (fst p) id)) (pending w)) w).

(** Array indexing by a computed integer.  The index is always in range in
    this program (see [loop_picks_in_range]), so the default is never
    returned. *)
Definition index (l : list Q) (i : Z) : Q := nth (Z.to_nat i) l 0.

(* ------------------------------------------------------------------ *)
(** *** Audio context *)

Definition default_param (v : Q) : AudioParam := mkParam v [].

Definition new_node (k : NodeKind) (ty : string) (v : Q) : AudioNode :=
  mkNode k ty (default_param v) None None None.

Definition create (n : AudioNode) : M nat :=
  fun w => (length (nodes w), set_nodes (nodes w ++ [n]) w).

Definition createGain : M nat := create (new_node GainNode EmptyString 1).
Definition createOscillator : M nat := create (new_node OscillatorNode "sine" 440).
Definition createBiquadFilter : M nat := create (new_node BiquadFilterNode "lowpass" 350).
Definition createBufferSource : M nat := create (new_node BufferSourceNode EmptyString 0).

Fixpoint upd {A} (i : nat) (f : A -> A) (l : list A) : list A :=
  match l, i with
  | [], _ => []
  | x :: r, O => f x :: r
  | x :: r, S j => x :: upd j f r
  end.

Definition with_node (id : nat) (f : AudioNode -> AudioNode) : M unit :=
  modify (fun w => set_nodes (upd id f (nodes w)) w).

Definition on_param (f : AudioParam -> AudioParam) (n : AudioNode) : AudioNode :=
  mkNode (kind n) (type n) (f (param n)) (buffer n) (startAt n) (stopAt n).

Definition schedule (e : AutomationEvent) (p : AudioParam) : AudioParam :=
  mkParam (value p) (events p ++ [e]).

Definition set_type (id : nat) (ty : string) : M unit :=
  with_node id (fun n => mkNode (kind n) ty (param n) (buffer n) (startAt n) (stopAt n)).
Definition set_value (id : nat) (v : Q) : M unit :=
  with_node id (on_param (fun p => mkParam v (events p))).
Definition set_buffer (id : nat) (b : list Q) : M unit :=
  with_node id (fun n => mkNode (kind n) (type n) (param n) (Some b) (startAt n) (stopAt n)).
Definition start (id : nat) (t : Q) : M unit :=
  with_node id (fun n => mkNode (kind n) (type n) (param n) (buffer n) (Some t) (stopAt n)).
Definition stop (id : nat) (t : Q) : M unit :=
  with_node id (fun n => mkNode (kind n) (type n) (param n) (buffer n) (startAt n) (Some t)).

Definition setValueAtTime (id : nat) (v t : Q) : M unit :=
  with_node id (on_param (schedule (SetValueAtTime v t))).
Definition linearRampToValueAtTime (id : nat) (v t : Q) : M unit :=
  with_node id (on_param (schedule (LinearRampToValueAtTime v t))).
Definition exponentialRampToValueAtTime (id : nat) (v t : Q) : M unit :=
  with_node id (on_param (schedule (ExponentialRampToValueAtTime v t))).
Definition setTargetAtTime (id : nat) (v t tc : Q) : M unit :=
  with_node id (on_param (schedule (SetTargetAtTime v t tc))).

Definition connect (src dst : nat) : M unit :=
  modify (fun w => set_edges (edges w ++ [(src, dst)]) w).

(** [ctx.destination] is node 0 of every context. *)
Definition destination : nat := 0%nat.

(* ================================================================== *)
(** ** class SoundEngine *)
(* ================================================================== *)

(** What [new SoundEngine()] takes from its surroundings. *)
Record Env : Type := mkEnv {
  env_now : Z;
  env_random : nat -> Draw;
  env_sampleRate : nat }.

(** The page before the engine exists: a new AudioContext holds only its
    destination and its clock reads 0. *)
Definition blank (e : Env) : World :=
  mkWorld (env_now e) (env_random e) 0 1 [] 0 (env_sampleRate e)
          [new_node Destination EmptyString 0] [] 0 0 false false [].

Definition constructor_ : M unit :=
  master <- createGain ;;
  modify (set_masterGain master) ;;;
  connect master destination ;;;
  set_value master 0.4 ;;;
  music <- createGain ;;
  modify (set_musicGain music) ;;;
  connect music destination ;;;
  set_value music 0 ;;;
  modify (set_muted false) ;;;
  modify (set_isPlaying false) ;;;
  modify (set_timerIDs []).

Definition new_SoundEngine (e : Env) : World := exec constructor_ (blank e).

(** [playPluck(freq, time, volume = 0.1)]: every caller in the program
    passes [volume]. *)
Definition playPluck (freq time volume : Q) : M unit :=
  m <- get muted ;;
  if m then ret tt else
  osc <- createOscillator ;;
  gain <- createGain ;;
  set_type osc "sine" ;;;
  set_value osc freq ;;;
  setValueAtTime gain 0 time ;;;
  linearRampToValueAtTime gain volume (time + 0.01) ;;;
  exponentialRampToValueAtTime gain 0.001 (time + 0.5) ;;;
  connect osc gain ;;;
  music <- get musicGain ;;
  connect gain music ;;;
  start osc time ;;;
  stop osc (time + 0.6).

Definition playBass (freq time : Q) : M unit :=
  m <- get muted ;;
  if m then ret tt else
  osc <- createOscillator ;;
  gain <- createGain ;;
  filter <- createBiquadFilter ;;
  set_type osc "triangle" ;;;
  set_value osc freq ;;;
  set_type filter "lowpass" ;;;
  set_value filter 400 ;;;
  setValueAtTime gain 0 time ;;;
  linearRampToValueAtTime gain 0.15 (time + 0.05) ;;;
  linearRampToValueAtTime gain 0 (time + 0.4) ;;;
  connect osc filter ;;;
  connect filter gain ;;;
  music <- get musicGain ;;
  connect gain music ;;;
  start osc time ;;;
  stop osc (time + 0.5).

Definition scaleHigh : list Q := [523.25; 622.25; 698.46; 783.99; 932.33].
Definition scaleLow : list Q := [130.81; 155.56; 174.61; 196.00].
Definition tempo : Z := 150.

(** [Math.floor(Math.random() * scale.length)] *)
Definition random_index (scale : list Q) : M Z :=
  r <- Math_random ;;
  ret (Math_floor (r * inject_Z (Z.of_nat (length scale)))).

(** [Math.floor(Date.now() / tempo) % 8 === 0] *)
Definition bass_gate (now : Z) : bool :=
  (Z.rem (Math_floor (inject_Z now / inject_Z tempo)) 8 =? 0)%Z.

(** The closure [loop] of [startMusic]. *)
Definition loop : M unit :=
  playing <- get isPlaying ;;
  if negb playing then ret tt else
  now <- get currentTime ;;
  r <- Math_random ;;
  (if negb (Qle_bool r 0.3) then
     i <- random_index scaleHigh ;;
     playPluck (index scaleHigh i) now 0.08
   else ret tt) ;;;
  d <- get Date_now ;;
  (if bass_gate d then
     i <- random_index scaleLow ;;
     playBass (index scaleLow i) now
   else ret tt) ;;;
  id <- setTimeout tempo ;;
  modify (fun w => set_timerIDs (timerIDs w ++ [id]) w).

Definition startMusic : M unit :=
  playing <- get isPlaying ;;
  if playing then ret tt else
  modify (set_isPlaying true) ;;;
  t <- get currentTime ;;
  music <- get musicGain ;;
  setValueAtTime music 0 t ;;;
  linearRampToValueAtTime music 0.25 (t + 2) ;;;
  loop.

Definition stopMusic : M unit :=
  music <- get musicGain ;;
  t <- get currentTime ;;
  setTargetAtTime music 0 t 0.5 ;;;
  modify (set_isPlaying false) ;;;
  ids <- get timerIDs ;;
  forEach ids (fun id _ => clearTimeout id) ;;;
  modify (set_timerIDs []).

Definition toggleMute : M bool :=
  m <- get muted ;;
  modify (set_muted (negb m)) ;;;
  m <- get muted ;;
  let sfxVol := if m then 0 else 0.4 in
  master <- get masterGain ;;
  t <- get currentTime ;;
  setTargetAtTime master sfxVol t 0.1 ;;;
  (if negb m then
     playing <- get isPlaying ;;
     (if negb playing then startMusic else ret tt) ;;;
     music <- get musicGain ;;
     t <- get currentTime ;;
     setTargetAtTime music 0.25 t 1.0
   else
     music <- get musicGain ;;
     t <- get currentTime ;;
     setTargetAtTime music 0 t 0.5) ;;;
  get muted.

(* ------------------------------------------------------------------ *)
(** *** One-shot sound effects *)

(** The body of the [for] loop of [createNoiseBuffer]: [n] samples
    [Math.random() * 2 - 1]. *)
Fixpoint noise_samples (n : nat) : M (list Q) :=
  match n with
  | O => ret []
  | S k => r <- Math_random ;;
           rest <- noise_samples k ;;
           ret ((r * 2 - 1) :: rest)
  end.

Definition createNoiseBuffer : M (list Q) :=
  rate <- get sampleRate ;;
  let bufferSize := (rate * 2)%nat in
  noise_samples bufferSize.

(** The loop index [i] as a JavaScript number. *)
Definition num (i : nat) : Q := inject_Z (Z.of_nat i).

Definition playSnap : M unit :=
  m <- get muted ;;
  if m then ret tt else
  t <- get currentTime ;;
  noise <- createBufferSource ;;
  data <- createNoiseBuffer ;;
  set_buffer noise data ;;;
  noiseFilter <- createBiquadFilter ;;
  set_type noiseFilter "lowpass" ;;;
  setValueAtTime noiseFilter 800 t ;;;
  noiseGain <- createGain ;;
  setValueAtTime noiseGain 0.5 t ;;;
  exponentialRampToValueAtTime noiseGain 0.01 (t + 0.15) ;;;
  connect noise noiseFilter ;;;
  connect noiseFilter noiseGain ;;;
  master <- get masterGain ;;
  connect noiseGain master ;;;
  start noise t ;;;
  osc <- createOscillator ;;
  clickGain <- createGain ;;
  set_type osc "triangle" ;;;
  setValueAtTime osc 150 t ;;;
  exponentialRampToValueAtTime osc 40 (t + 0.1) ;;;
  setValueAtTime clickGain 0.8 (t + 0.05) ;;;
  exponentialRampToValueAtTime clickGain 0.01 (t + 0.15) ;;;
  connect osc clickGain ;;;
  master <- get masterGain ;;
  connect clickGain master ;;;
  start osc t ;;;
  stop osc (t + 0.2).

Definition playScrambleNoise : M unit :=
  m <- get muted ;;
  if m then ret tt else
  t <- get currentTime ;;
  let count := 8%nat in
  for_count count (fun i =>
    osc <- createOscillator ;;
    gain <- createGain ;;
    set_type osc (if Nat.eqb (i mod 2) 0 then "square" else "sawtooth") ;;;
    r <- Math_random ;;
    let freq := 800 + r * 1000 in
    setValueAtTime osc freq (t + num i * 0.04) ;;;
    setValueAtTime gain 0.05 (t + num i * 0.04) ;;;
    exponentialRampToValueAtTime gain 0.001 (t + num i * 0.04 + 0.03) ;;;
    connect osc gain ;;;
    master <- get masterGain ;;
    connect gain master ;;;
    start osc (t + num i * 0.04) ;;;
    stop osc (t + num i * 0.04 + 0.05)).

Definition playServo : M unit :=
  m <- get muted ;;
  if m then ret tt else
  t <- get currentTime ;;
  osc <- createOscillator ;;
  gain <- createGain ;;
  set_type osc "sawtooth" ;;;
  setValueAtTime osc 100 t ;;;
  exponentialRampToValueAtTime osc 800 (t + 0.6) ;;;
  filter <- createBiquadFilter ;;
  set_type filter "lowpass" ;;;
  setValueAtTime filter 400 t ;;;
  linearRampToValueAtTime filter 2000 (t + 0.6) ;;;
  setValueAtTime gain 0 t ;;;
  linearRampToValueAtTime gain 0.2 (t + 0.1) ;;;
  linearRampToValueAtTime gain 0 (t + 0.6) ;;;
  connect osc filter ;;;
  connect filter gain ;;;
  master <- get masterGain ;;
  connect gain master ;;;
  start osc t ;;;
  stop osc (t + 0.6).

Definition playHover : M unit :=
  m <- get muted ;;
  if m then ret tt else
  t <- get currentTime ;;
  osc <- createOscillator ;;
  gain <- createGain ;;
  set_type osc "sine" ;;;
  setValueAtTime osc 1200 t ;;;
  setValueAtTime gain 0.05 t ;;;
  exponentialRampToValueAtTime gain 0.001 (t + 0.05) ;;;
  connect osc gain ;;;
  master <- get masterGain ;;
  connect gain master ;;;
  start osc t ;;;
  stop osc (t + 0.05).

Definition playSuccess : M unit :=
  m <- get muted ;;
  if m then ret tt else
  t <- get currentTime ;;
  let notes := [440; 554; 659; 830] in
  forEach notes (fun freq i =>
    osc <- createOscillator ;;
    gain <- createGain ;;
    set_type osc "triangle" ;;;
    set_value osc freq ;;;
    setValueAtTime gain 0 t ;;;
    linearRampToValueAtTime gain 0.15 (t + 0.1 + num i * 0.05) ;;;
    exponentialRampToValueAtTime gain 0.001 (t + 2.0) ;;;
    connect osc gain ;;;
    master <- get masterGain ;;
    connect gain master ;;;
    start osc t ;;;
    stop osc (t + 2.0)).

(** The five one-shot triggers the page calls. *)
Definition one_shots : list (M unit) :=
  [playSnap; playScrambleNoise; playServo; playHover; playSuccess].

(* ================================================================== *)
(** ** The event loop *)
(* ================================================================== *)

(** Method calls the page can make on the engine. *)
Inductive Call : Type :=
| call_startMusic | call_stopMusic | call_toggleMute
| call_playPluck (freq time volume : Q) | call_playBass (freq time : Q)
| call_playSnap | call_playScrambleNoise | call_playServo
| call_playHover | call_playSuccess.

Definition do_call (c : Call) : M unit :=
  match c with
  | call_startMusic => startMusic
  | call_stopMusic => stopMusic
  | call_toggleMute => toggleMute ;;; ret tt
  | call_playPluck f t v => playPluck f t v
  | call_playBass f t => playBass f t
  | call_playSnap => playSnap
  | call_playScrambleNoise => playScrambleNoise
  | call_playServo => playServo
  | call_playHover => playHover
  | call_playSuccess => playSuccess
  end.

(** One turn of the single-threaded event loop: the page calls a method,
    time passes ([ms] on the wall clock and timer clock, [dt] seconds on the
    audio clock), or a pending timer that is due runs its callback. *)
Inductive Label : Type :=
| LCall (c : Call)
| LElapse (ms : Z) (dt : Q)
| LFire (id : nat).

Definition due_of (id : nat) (w : World) : option Z :=
  match find (fun p => Nat.eqb (fst p) id) (pending w) with
  | Some p => Some (snd p)
  | None => None
  end.

Definition step (l : Label) (w : World) : option World :=
  match l with
  | LCall c => Some (exec (do_call c) w)
  | LElapse ms dt =>
      if (0 <=? ms)%Z && Qle_bool 0 dt
      then Some (set_currentTime (currentTime w + dt) (set_Date_now (Date_now w + ms)%Z w))
      else None
  | LFire id =>
      match due_of id w with
      | Some due =>
          if (due <=? Date_now w)%Z
          then Some (exec (clearTimeout id ;;; loop) w)
          else None
      | None => None
      end
  end.

Fixpoint run (ls : list Label) (w : World) : option World :=
  match ls with
  | [] => Some w
  | l :: r => match step l w with
              | Some w1 => run r w1
              | None => None
              end
  end.

(** States the engine can be in: built by [new SoundEngine()] and driven by
    the event loop. *)
Inductive reachable : World -> Prop :=
| reach_new (e : Env) : reachable (new_SoundEngine e)
| reach_step (l : Label) (w w1 : World) :
    reachable w -> step l w = Some w1 -> reachable w1.

(* ------------------------------------------------------------------ *)
(** *** Observations on the audio graph *)

Definition is_osc (ty : string) (n : AudioNode) : bool :=
  match kind n with
  | OscillatorNode => String.eqb (type n) ty
  | _ => false
  end.

Definition is_source (n : AudioNode) : bool :=
  match kind n with
  | OscillatorNode | BufferSourceNode => true
  | _ => false
  end.

(** Notes synthesised so far, counted as source nodes: a pluck or a bass
    pulse is one oscillator. *)
Definition notes (w : World) : nat := List.length (filter is_source (nodes w)).

(** The nodes added between [w] and [w1]. *)
Definition created (w w1 : World) : list AudioNode :=
  skipn (List.length (nodes w)) (nodes w1).

(** Among the nodes a tick creates, plucks are the sine oscillators and bass
    pulses the triangle ones. *)
Definition count_osc (ty : string) (l : list AudioNode) : nat :=
  List.length (filter (is_osc ty) l).

(** Signal flow: [dst] is reached from [src] along [edges] without passing
    through node [avoid], in at most [fuel] hops. *)
Fixpoint flows (fuel : nat) (es : list (nat * nat)) (avoid src dst : nat) : bool :=
  if Nat.eqb src avoid then false
  else if Nat.eqb src dst then true
  else match fuel with
       | O => false
       | S k => existsb (fun e => Nat.eqb (fst e) src && flows k es avoid (snd e) dst) es
       end.

(* ------------------------------------------------------------------ *)
(** *** Concrete environments used in examples *)

Definition half : Draw := @mkDraw (1 # 2) eq_refl.
Definition tenth : Draw := @mkDraw (1 # 10) eq_refl.

Definition env0 : Env := mkEnv 300 (fun _ => half) 2.
Definition env_quiet : Env := mkEnv 300 (fun _ => tenth) 2.

(* ================================================================== *)
(** ** The page around the engine *)
(* ================================================================== *)

(** The part of [Cube3DResume] that drives the engine: the autostart of the
    music (script.js 599-636), the mute button (1128-1150), and the calls of
    the one-shot effects made by the cube.  It is the only code that calls
    the engine: [stopMusic] is never called, [toggleMute] only by the mute
    button, [startMusic] only by the autostart, [playPluck] and [playBass]
    only by [loop]. *)

(** [ctx.state] *)
Inductive ContextState : Type := suspended | running | closed.

(** The element [#muteBtn]: whether its class list holds ['active'], and the
    [className] of its [<i>] child when it has one. *)
Record MuteButton : Type := mkButton {
  active : bool;
  icon : option string }.

(** [soundFX] is the engine, [resumes] counts the [then] callbacks of
    [ctx.resume()] that have not run yet, [muteBtn] is the button when the
    document has one. *)
Record Page : Type := mkPage {
  soundFX : World;
  ctx_state : ContextState;
  resumes : nat;
  muteBtn : option MuteButton }.

(** [if (!this.soundFX.isPlaying && !this.soundFX.muted) this.soundFX.startMusic()] *)
Definition start_unless_playing_or_muted : M unit :=
  playing <- get isPlaying ;;
  m <- get muted ;;
  if negb playing && negb m then startMusic else ret tt.

(** [startAudioImmediately]: on a suspended context it calls [ctx.resume()]
    and leaves the guarded start to the promise's callback; on a running
    context it runs the guarded start at once; otherwise it does nothing. *)
Definition startAudioImmediately (p : Page) : Page :=
  match ctx_state p with
  | suspended => mkPage (soundFX p) (ctx_state p) (S (resumes p)) (muteBtn p)
  | running =>
      mkPage (exec start_unless_playing_or_muted (soundFX p)) (ctx_state p) (resumes p)
             (muteBtn p)
  | closed => p
  end.

(** Set-up of the mute button: ['active'] is removed and the icon, when
    there is one, shows the speaker. *)
Definition setup_muteBtn (b : MuteButton) : MuteButton :=
  mkButton false (match icon b with
                  | Some _ => Some "fas fa-volume-up"%string
                  | None => None
                  end).

(** The click handler of the mute button.  [icon.className = ...] throws a
    TypeError when the button has no [<i>] child: the handler ends there,
    after [toggleMute] has run and before the class list is touched.  The
    last component tells whether the handler threw. *)
Definition muteBtn_click (b : MuteButton) (w : World) : MuteButton * World * bool :=
  let (isMuted, w1) := toggleMute w in
  match icon b with
  | None => (b, w1, true)
  | Some _ =>
      if isMuted
      then (mkButton true (Some "fas fa-volume-mute"%string), w1, false)
      else (mkButton false (Some "fas fa-volume-up"%string), w1, false)
  end.

(** What happens on the page, as far as the engine is concerned:
    [startAudioImmediately] is called (at load, by its two timers, by the
    [resumeAudio] listener); a [resume()] promise is fulfilled; the browser
    changes the state of the context; the mute button is clicked; the cube
    triggers a one-shot effect; time passes or a timer of the sequencer
    fires. *)
Inductive PageEvent : Type :=
| ev_autostart
| ev_resumed
| ev_context (s : ContextState)
| ev_click_mute
| ev_engine (l : Label).

(** The engine steps the page itself can cause. *)
Definition page_label (l : Label) : bool :=
  match l with
  | LCall c =>
      match c with
      | call_playSnap | call_playScrambleNoise | call_playServo
      | call_playHover | call_playSuccess => true
      | _ => false
      end
  | _ => true
  end.

Definition page_step (ev : PageEvent) (p : Page) : option Page :=
  match ev with
  | ev_autostart => Some (startAudioImmediately p)
  | ev_resumed =>
      match resumes p with
      | O => None
      | S k => Some (mkPage (exec start_unless_playing_or_muted (soundFX p))
                            (ctx_state p) k (muteBtn p))
      end
  | ev_context s => Some (mkPage (soundFX p) s (resumes p) (muteBtn p))
  | ev_click_mute =>
      match muteBtn p with
      | Some b =>
          let '(b1, w1, _) := muteBtn_click b (soundFX p) in
          Some (mkPage w1 (ctx_state p) (resumes p) (Some b1))
      | None => None
      end
  | ev_engine l =>
      if page_label l
      then match step l (soundFX p) with
           | Some w1 => Some (mkPage w1 (ctx_state p) (resumes p) (muteBtn p))
           | None => None
           end
      else None
  end.

Fixpoint page_run (evs : list PageEvent) (p : Page) : option Page :=
  match evs with
  | [] => Some p
  | ev :: r => match page_step ev p with
               | Some p1 => page_run r p1
               | None => None
               end
  end.

(** The page once its constructor has run: the engine is new, the first
    [startAudioImmediately()] has been made, the mute button is set up. *)
Definition new_Page (e : Env) (s : ContextState) (b : option MuteButton) : Page :=
  let p := startAudioImmediately (mkPage (new_SoundEngine e) s 0 b) in
  mkPage (soundFX p) (ctx_state p) (resumes p) (option_map setup_muteBtn (muteBtn p)).

Inductive page_reachable : Page -> Prop :=
| page_new (e : Env) (s : ContextState) (b : option MuteButton) :
    page_reachable (new_Page e s b)
| page_next (ev : PageEvent) (p p1 : Page) :
    page_reachable p -> page_step ev p = Some p1 -> page_reachable p1.

(* ================================================================== *)
(** ** The scramble sequence of the cube *)
(* ================================================================== *)








(* ================================================================== *)
(** ** Definitions used to state the properties *)
(* ================================================================== *)

(* ------------------------------------------------------------------ *)
(** *** What a method may change *)

(** The graph only grows: the two buses keep their names, no node is
    removed, and every new edge leaves a node created after [w]. *)
Record grows (w w1 : World) : Prop := {
  g_master : masterGain w1 = masterGain w;
  g_music : musicGain w1 = musicGain w;
  g_len : (List.length (nodes w) <= List.length (nodes w1))%nat;
  g_edges : exists es, edges w1 = edges w ++ es /\
                       Forall (fun e => (List.length (nodes w) <= fst e)%nat) es }.

(** Clocks, timers and the engine's flags are untouched. *)
Record same_control (w w1 : World) : Prop := {
  sc_now : Date_now w1 = Date_now w;
  sc_time : currentTime w1 = currentTime w;
  sc_next : next_timer w1 = next_timer w;
  sc_pending : pending w1 = pending w;
  sc_muted : muted w1 = muted w;
  sc_playing : isPlaying w1 = isPlaying w;
  sc_timerIDs : timerIDs w1 = timerIDs w }.

(** A computation that only adds to the graph (and draws random numbers). *)
Definition appends (w w1 : World) : Prop :=
  exists ns, nodes w1 = nodes w ++ ns.

Definition quiet_effect {A} (m : M A) : Prop :=
  forall w, grows w (exec m w) /\ same_control w (exec m w) /\ appends w (exec m w).

(* ------------------------------------------------------------------ *)
(** *** Closed forms of the notes and of the sequencer's steps *)

(** The samples drawn by [createNoiseBuffer], in closed form. *)
Fixpoint noise_list (n : nat) (rd : nat -> Draw) (p : nat) : list Q :=
  match n with
  | O => []
  | S k => (draw (rd p) * 2 - 1) :: noise_list k rd (S p)
  end.

(** The nodes [playPluck] and [playBass] add to the graph. *)
Definition pluck_osc (freq time : Q) : AudioNode :=
  mkNode OscillatorNode "sine" (mkParam freq []) None (Some time) (Some (time + 0.6)).

Definition pluck_gain (time volume : Q) : AudioNode :=
  mkNode GainNode EmptyString
         (mkParam 1 [SetValueAtTime 0 time;
                     LinearRampToValueAtTime volume (time + 0.01);
                     ExponentialRampToValueAtTime 0.001 (time + 0.5)])
         None None None.

Definition bass_osc (freq time : Q) : AudioNode :=
  mkNode OscillatorNode "triangle" (mkParam freq []) None (Some time) (Some (time + 0.5)).

Definition bass_gain (time : Q) : AudioNode :=
  mkNode GainNode EmptyString
         (mkParam 1 [SetValueAtTime 0 time;
                     LinearRampToValueAtTime 0.15 (time + 0.05);
                     LinearRampToValueAtTime 0 (time + 0.4)])
         None None None.

Definition bass_filter : AudioNode :=
  mkNode BiquadFilterNode "lowpass" (mkParam 400 []) None None None.

(** Nodes and edges appended to the graph. *)
Definition add_graph (ns : list AudioNode) (es : list (nat * nat)) (w : World) : World :=
  set_edges (edges w ++ es) (set_nodes (nodes w ++ ns) w).

(** The two layers and the rescheduling step of [loop]. *)
Definition layerA (now : Q) : M unit :=
  r <- Math_random ;;
  if negb (Qle_bool r 0.3) then
    i <- random_index scaleHigh ;;
    playPluck (index scaleHigh i) now 0.08
  else ret tt.

Definition layerB (now : Q) : M unit :=
  d <- get Date_now ;;
  if bass_gate d then
    i <- random_index scaleLow ;;
    playBass (index scaleLow i) now
  else ret tt.

Definition schedule_next : M unit :=
  id <- setTimeout tempo ;;
  modify (fun w => set_timerIDs (timerIDs w ++ [id]) w).

(** The pending-timer list after [timerIDs.forEach(id => clearTimeout(id))]. *)
Definition cleared (ids : list nat) (pend : list (nat * Z)) : list (nat * Z) :=
  fold_left (fun p id => filter (fun q => negb (Nat.eqb (fst q) id)) p) ids pend.

(** One more automation call on the AudioParam of node [id]. *)
Definition retarget (id : nat) (e : AutomationEvent) (w : World) : World :=
  set_nodes (upd id (on_param (schedule e)) (nodes w)) w.

(** The sequencer has scheduled one more tick. *)
Record ticked (w w1 : World) : Prop := {
  tk_pending : pending w1 = pending w ++ [(next_timer w, (Date_now w + tempo)%Z)];
  tk_timerIDs : timerIDs w1 = timerIDs w ++ [next_timer w];
  tk_next : next_timer w1 = S (next_timer w);
  tk_now : Date_now w1 = Date_now w;
  tk_time : currentTime w1 = currentTime w;
  tk_muted : muted w1 = muted w }.

(* ------------------------------------------------------------------ *)
(** *** Invariants *)

(** Shape of the graph in every state of the engine. *)
Record GraphInv (w : World) : Prop := {
  gi_master : masterGain w = 1%nat;
  gi_music : musicGain w = 2%nat;
  gi_nodes : (3 <= List.length (nodes w))%nat;
  gi_master_out : In (1, 0)%nat (edges w);
  gi_music_out : In (2, 0)%nat (edges w);
  gi_bus : forall a b, In (a, b) (edges w) -> (a < 3)%nat -> b = 0%nat }.

(** Bookkeeping of timer handles in every state of the engine. *)
Record TimerInv (w : World) : Prop := {
  ti_handles : forall p, In p (pending w) -> In (fst p) (timerIDs w);
  ti_fresh : forall p, In p (pending w) -> (fst p < next_timer w)%nat;
  ti_idle : isPlaying w = false -> timerIDs w = [] }.

(* ------------------------------------------------------------------ *)
(** *** What one tick synthesises *)

(** [Math.random() > 0.3] at the next draw. *)
Definition melody_gate (w : World) : bool :=
  negb (Qle_bool (draw (random w (rpos w))) 0.3).

(** The frequency a layer picks with the draw at position [p]. *)
Definition picked (scale : list Q) (w : World) (p : nat) : Q :=
  index scale (Math_floor (draw (random w p) * inject_Z (Z.of_nat (List.length scale)))).

(** Nodes added by each layer of a tick that runs in [w]. *)
Definition melody_nodes (now : Q) (w : World) : list AudioNode :=
  if negb (muted w) && melody_gate w
  then [pluck_osc (picked scaleHigh w (S (rpos w))) now; pluck_gain now 0.08]
  else [].

Definition bass_nodes (now : Q) (w : World) : list AudioNode :=
  if negb (muted w) && bass_gate (Date_now w)
  then [bass_osc (picked scaleLow w (rpos w)) now; bass_gain now; bass_filter]
  else [].

(** The nodes one tick adds. *)
Definition tick_nodes (w : World) : list AudioNode :=
  melody_nodes (currentTime w) w ++
  bass_nodes (currentTime w) (exec (layerA (currentTime w)) w).

(* ------------------------------------------------------------------ *)
(** *** Runs, observations and example states *)

(** A running engine, a muted engine. *)
Definition w_running : World :=
  Eval vm_compute in exec startMusic (new_SoundEngine env0).
Definition w_muted : World :=
  Eval vm_compute in exec toggleMute (new_SoundEngine env0).

(** Labels of the environment alone: time passing and timers firing. *)
Definition is_call (l : Label) : bool :=
  match l with LCall _ => true | _ => false end.
Definition is_fire (l : Label) : bool :=
  match l with LFire _ => true | _ => false end.
Definition fires (ls : list Label) : nat := List.length (filter is_fire ls).

(** Time passing, as labels. *)
Definition elapse (d : Z * Q) : Label := LElapse (fst d) (snd d).
Definition forward (d : Z * Q) : bool := (0 <=? fst d)%Z && Qle_bool 0 (snd d).

(** Automation calls recorded on the AudioParam of node [id]. *)
Definition param_events (id : nat) (w : World) : list AutomationEvent :=
  match nth_error (nodes w) id with
  | Some n => events (param n)
  | None => []
  end.

(** Contribution of each layer to the notes of a tick. *)
Definition melody_count (w : World) : nat :=
  if negb (muted w) && melody_gate w then 1 else 0.
Definition bass_count (w : World) : nat :=
  if negb (muted w) && bass_gate (Date_now w) then 1 else 0.

(** A run in which every timer fires exactly when it is due. *)
Definition fire_next (w : World) : option World :=
  match pending w with
  | (id, due) :: _ => run [LElapse (due - Date_now w) 0; LFire id] w
  | [] => None
  end.

(** Bass pulses created by each of the next [n] ticks. *)
Fixpoint bass_trace (n : nat) (w : World) : list nat :=
  match n with
  | O => []
  | S k => match fire_next w with
           | Some w1 => count_osc "triangle" (created w w1) :: bass_trace k w1
           | None => []
           end
  end.

(** Bass pulses of the first ten ticks of a fresh engine, the first tick
    being the one [startMusic] runs itself. *)
Definition first_ticks (e : Env) : list nat :=
  let w := new_SoundEngine e in
  let w1 := exec startMusic w in
  count_osc "triangle" (created w w1) :: bass_trace 9 w1.

(** An engine created when [Date.now()] is 1200, started, muted, and left
    playing for 1200 ms: its timer is due and [floor(Date.now() / 150)] is
    16. *)
Definition env1200 : Env := mkEnv 1200 (fun _ => half) 2.
Definition muted_run : list Label :=
  [LCall call_startMusic; LCall call_toggleMute; LElapse 1200 0].
Definition w_muted_tick : World :=
  Eval vm_compute in
    match run muted_run (new_SoundEngine env1200) with
    | Some w => w
    | None => new_SoundEngine env1200
    end.

(** C6 as stated: the tick numbered [k] (counting from [first]) carries one
    bass pulse when [k] is a multiple of 8 and none otherwise. *)
Definition bass_on_multiples_of_8 (first : nat) (trace : list nat) : Prop :=
  forall k, (k < List.length trace)%nat ->
            nth k trace 0%nat = if Nat.eqb ((first + k) mod 8) 0 then 1%nat else 0%nat.

(** C3 as stated: [start()] then [stop()] on a fresh engine leaves no note
    triggered. *)
Definition start_then_stop (e : Env) : World :=
  exec stopMusic (exec startMusic (new_SoundEngine e)).

(** Labels other than a call of [stopMusic]. *)
Definition no_stop (l : Label) : bool :=
  match l with
  | LCall call_stopMusic => false
  | _ => true
  end.

(** Some started source node reaches the destination along a path that
    does not pass through the master bus. *)
Definition audible_without_master (w : World) : bool :=
  existsb (fun i => match nth_error (nodes w) i with
                    | Some n => is_source n &&
                                flows (List.length (nodes w)) (edges w) (masterGain w)
                                      i destination
                    | None => false
                    end)
          (seq 0 (List.length (nodes w))).

(** C2 as stated: the music bus feeds the master bus, and nothing is heard
    once the master bus is silent. *)
Definition music_under_master (w : World) : Prop :=
  In (musicGain w, masterGain w) (edges w) /\ audible_without_master w = false.

(* ------------------------------------------------------------------ *)
(** *** The exponential ramp of [setTargetAtTime] *)

(** The value an AudioParam takes after [setTargetAtTime(target, startTime,
    timeConstant)], as the Web Audio API defines it: from the value [v0] it
    has at [startTime] it approaches [target] exponentially,
    [v(t) = target + (v0 - target) * exp(-(t - startTime) / timeConstant)].
    Gains and times are taken as real numbers here. *)
Definition setTarget_value (target startTime timeConstant : Q) (v0 t : R) : R :=
  (Q2R target + (v0 - Q2R target) * exp (- ((t - Q2R startTime) / Q2R timeConstant)))%R.


(* ------------------------------------------------------------------ *)
(** *** The one-shot effects in closed form *)

(** The five nodes [playSnap] adds at audio time [t]: the noise layer (buffer
    source, low-pass filter, gain) and the click layer (oscillator, gain). *)
Definition snap_nodes (t : Q) (data : list Q) : list AudioNode :=
  [ mkNode BufferSourceNode EmptyString (mkParam 0 []) (Some data) (Some t) None;
    mkNode BiquadFilterNode "lowpass" (mkParam 350 [SetValueAtTime 800 t]) None None None;
    mkNode GainNode EmptyString
      (mkParam 1 [SetValueAtTime 0.5 t; ExponentialRampToValueAtTime 0.01 (t + 0.15)])
      None None None;
    mkNode OscillatorNode "triangle"
      (mkParam 440 [SetValueAtTime 150 t; ExponentialRampToValueAtTime 40 (t + 0.1)])
      None (Some t) (Some (t + 0.2));
    mkNode GainNode EmptyString
      (mkParam 1 [SetValueAtTime 0.8 (t + 0.05);
                  ExponentialRampToValueAtTime 0.01 (t + 0.15)])
      None None None ].

Definition snap_edges (n master : nat) : list (nat * nat) :=
  [(n, n + 1); (n + 1, n + 2); (n + 2, master); (n + 3, n + 4); (n + 4, master)]%nat.

(** The two nodes of blip [i] of [playScrambleNoise], [r] being its random
    draw. *)
Definition blip_nodes (t r : Q) (i : nat) : list AudioNode :=
  [ mkNode OscillatorNode (if Nat.eqb (i mod 2) 0 then "square" else "sawtooth")
      (mkParam 440 [SetValueAtTime (800 + r * 1000) (t + num i * 0.04)])
      None (Some (t + num i * 0.04)) (Some (t + num i * 0.04 + 0.05));
    mkNode GainNode EmptyString
      (mkParam 1 [SetValueAtTime 0.05 (t + num i * 0.04);
                  ExponentialRampToValueAtTime 0.001 (t + num i * 0.04 + 0.03)])
      None None None ].

(** An oscillator feeding its own gain, the gain feeding [bus]: the pair is
    the [i]-th one created after node [n]. *)
Definition pair_edges (n bus i : nat) : list (nat * nat) :=
  [(n + 2 * i, n + (2 * i + 1)); (n + (2 * i + 1), bus)]%nat.

Definition servo_nodes (t : Q) : list AudioNode :=
  [ mkNode OscillatorNode "sawtooth"
      (mkParam 440 [SetValueAtTime 100 t; ExponentialRampToValueAtTime 800 (t + 0.6)])
      None (Some t) (Some (t + 0.6));
    mkNode GainNode EmptyString
      (mkParam 1 [SetValueAtTime 0 t; LinearRampToValueAtTime 0.2 (t + 0.1);
                  LinearRampToValueAtTime 0 (t + 0.6)])
      None None None;
    mkNode BiquadFilterNode "lowpass"
      (mkParam 350 [SetValueAtTime 400 t; LinearRampToValueAtTime 2000 (t + 0.6)])
      None None None ].

Definition servo_edges (n master : nat) : list (nat * nat) :=
  [(n, n + 2); (n + 2, n + 1); (n + 1, master)]%nat.

Definition hover_nodes (t : Q) : list AudioNode :=
  [ mkNode OscillatorNode "sine" (mkParam 440 [SetValueAtTime 1200 t])
      None (Some t) (Some (t + 0.05));
    mkNode GainNode EmptyString
      (mkParam 1 [SetValueAtTime 0.05 t; ExponentialRampToValueAtTime 0.001 (t + 0.05)])
      None None None ].

(** The two nodes of voice [i] of the chord of [playSuccess]. *)
Definition chord_nodes (t freq : Q) (i : nat) : list AudioNode :=
  [ mkNode OscillatorNode "triangle" (mkParam freq []) None (Some t) (Some (t + 2.0));
    mkNode GainNode EmptyString
      (mkParam 1 [SetValueAtTime 0 t;
                  LinearRampToValueAtTime 0.15 (t + 0.1 + num i * 0.05);
                  ExponentialRampToValueAtTime 0.001 (t + 2.0)])
      None None None ].

Definition chord : list Q := [440; 554; 659; 830].

(** At most one tick is scheduled: none while the sequencer is idle, exactly
    one while it plays, due no later than one tick interval from now. *)
Definition OneTick (w : World) : Prop :=
  if isPlaying w
  then exists id due, pending w = [(id, due)] /\ (due <= Date_now w + tempo)%Z
  else pending w = [].

(** Labels other than a call of [toggleMute]. *)
Definition no_toggle (l : Label) : bool :=
  match l with
  | LCall call_toggleMute => false
  | _ => true
  end.

(** Nothing was added to the audio graph between [w] and [w1]: the same
    nodes (automation on the buses apart), the same connections, the same
    notes; and the mute flag is as it was. *)
Record nothing_added (w w1 : World) : Prop := {
  na_muted : muted w1 = muted w;
  na_nodes : List.length (nodes w1) = List.length (nodes w);
  na_edges : edges w1 = edges w;
  na_notes : notes w1 = notes w }.




(* ------------------------------------------------------------------ *)
(** *** Shape of the audio graph *)

(** The [start] and [stop] calls a node has received, by kind: an
    oscillator is started and stopped at a later time; a buffer source is
    given a buffer, started, and left to play it to its end; no other node is
    ever started. *)
Definition scheduled (n : AudioNode) : Prop :=
  match kind n with
  | OscillatorNode => exists s e, startAt n = Some s /\ stopAt n = Some e /\ s < e
  | BufferSourceNode =>
      (exists s, startAt n = Some s) /\ stopAt n = None /\ buffer n <> None
  | _ => startAt n = None /\ stopAt n = None
  end.

(** Two states of one node that differ in its AudioParam at most. *)
Definition same_shape (a b : AudioNode) : Prop :=
  kind b = kind a /\ startAt b = startAt a /\ stopAt b = stopAt a /\ buffer b = buffer a.

(** The other of the two buses (master is node 1, music node 2). *)
Definition other_bus (b : nat) : nat := if Nat.eqb b 1 then 2%nat else 1%nat.

(** [bus_of] names, for every node created after the buses, the bus its
    signal ends in: the two buses feed the destination and nothing else;
    every other connection leads to the bus of its source or to a node of the
    same bus; and every source node reaches the destination through its
    bus. *)
Record assigns (bus_of : nat -> nat) (ns : list AudioNode) (es : list (nat * nat)) : Prop := {
  as_range : forall i, bus_of i = 1%nat \/ bus_of i = 2%nat;
  as_edges : forall a c, In (a, c) es ->
      (a < List.length ns)%nat /\ (c < List.length ns)%nat /\
      (((a = 1 \/ a = 2) /\ c = 0)%nat \/
       ((3 <= a)%nat /\ (c = bus_of a \/ ((3 <= c)%nat /\ bus_of c = bus_of a))));
  as_sources : forall i nd, nth_error ns i = Some nd -> is_source nd = true ->
      (3 <= i)%nat /\ flows 4 es (other_bus (bus_of i)) i 0 = true }.

(** The graph in every state of the engine. *)
Record Wired (ns : list AudioNode) (es : list (nat * nat)) : Prop := {
  wd_scheduled : Forall scheduled ns;
  wd_assigns : exists bus_of, assigns bus_of ns es }.

(** What one method call adds to the graph: nodes [grp], named from [n] on,
    and connections [es] among them and into the single bus [bus]. *)
Record batch (n bus : nat) (grp : list AudioNode) (es : list (nat * nat)) : Prop := {
  bt_scheduled : Forall scheduled grp;
  bt_edges : forall a c, In (a, c) es ->
      (n <= a < n + List.length grp)%nat /\
      (c = bus \/ (n <= c < n + List.length grp)%nat);
  bt_paths : forall j nd old,
      nth_error grp j = Some nd -> is_source nd = true -> In (bus, 0%nat) old ->
      flows 4 (old ++ es) (other_bus bus) (n + j) 0 = true }.

(** The invariant on the graph of a state. *)
Definition WiredInv (w : World) : Prop := Wired (nodes w) (edges w).

(** The calls that synthesise a sound. *)
Definition is_play (c : Call) : bool :=
  match c with
  | call_startMusic | call_stopMusic | call_toggleMute => false
  | _ => true
  end.

(** The bus a sound is mixed into: the sequencer's notes go to the music
    bus, the one-shot effects to the master bus. *)
Definition bus_of_call (c : Call) : nat :=
  match c with
  | call_playPluck _ _ _ | call_playBass _ _ => 2%nat
  | _ => 1%nat
  end.

(* ------------------------------------------------------------------ *)
(** *** The tempo, the page and the scramble *)

(** The running engine 150 ms later: its first timer is due. *)
Definition w_due : World :=
  Eval vm_compute in
    match step (LElapse 150 0) w_running with
    | Some w => w
    | None => w_running
    end.


(** A page with a mute button that has its icon, loaded with a running
    context, and the same page after a click on the button. *)
Definition page0 : Page :=
  Eval vm_compute in new_Page env0 running (Some (mkButton true (Some "fas"%string))).


(** Ticks of the sequencer among the events of the page. *)
Definition is_tick (ev : PageEvent) : bool :=
  match ev with
  | ev_engine (LFire _) => true
  | _ => false
  end.
Definition page_ticks (evs : list PageEvent) : nat := List.length (filter is_tick evs).


(* ================================================================== *)
(** ** Random draws *)
(* ================================================================== *)

Lemma draw_range (d : Draw) : 0 <= draw d /\ draw d < 1.
Proof.
  pose proof (draw_ok d) as H. unfold in_unit in H.
  apply andb_prop in H. destruct H as [H1 H2].
  apply Qle_bool_iff in H1. split; [assumption|].
  apply Qnot_le_lt. intros H. apply Qle_bool_iff in H. rewrite H in H2. discriminate.
Qed.

(** [Math.floor(Math.random() * scale.length)] is a valid index into a
    non-empty [scale]. *)
Lemma scale_index_in_range (scale : list Q) (d : Draw) :
  scale <> [] ->
  (Z.to_nat (Math_floor (draw d * inject_Z (Z.of_nat (List.length scale))))
   < List.length scale)%nat.
Proof.
  intros Hs. destruct (draw_range d) as [H0 H1].
  set (n := Z.of_nat (List.length scale)).
  assert (Hn : (0 < n)%Z).
  { subst n. destruct scale; [congruence | cbn [List.length]; lia]. }
  assert (Hq : 0 < inject_Z n) by (change 0 with (inject_Z 0); rewrite <- Zlt_Qlt; assumption).
  unfold Math_floor.
  assert (Lo : (0 <= Qfloor (draw d * inject_Z n))%Z).
  { change 0%Z with (Qfloor 0). apply Qfloor_resp_le.
    apply Qmult_le_0_compat; [assumption | apply Qlt_le_weak; assumption]. }
  assert (Hi : (Qfloor (draw d * inject_Z n) < n)%Z).
  { rewrite Zlt_Qlt. eapply Qle_lt_trans; [apply Qfloor_le|].
    setoid_replace (inject_Z n) with (1 * inject_Z n) at 2 by ring.
    apply Qmult_lt_compat_r; assumption. }
  subst n. lia.
Qed.

(** Both picks of [loop] stay inside their scale. *)
Lemma loop_picks_in_range (d : Draw) :
  (Z.to_nat (Math_floor (draw d * inject_Z (Z.of_nat (List.length scaleHigh))))
   < List.length scaleHigh)%nat /\
  (Z.to_nat (Math_floor (draw d * inject_Z (Z.of_nat (List.length scaleLow))))
   < List.length scaleLow)%nat.
Proof. split; apply scale_index_in_range; discriminate. Qed.

(* ================================================================== *)
(** ** Evaluating monadic code on a symbolic world *)
(* ================================================================== *)

Lemma exec_bind A B (m : M A) (k : A -> M B) (w : World) :
  exec (bind m k) w = exec (k (fst (m w))) (snd (m w)).
Proof. unfold exec, bind. destruct (m w). reflexivity. Qed.

Lemma bind_eq A B (m : M A) (k : A -> M B) (w : World) :
  bind m k w = k (fst (m w)) (snd (m w)).
Proof. unfold bind. destruct (m w). reflexivity. Qed.

Lemma bind_assoc A B C (m : M A) (k : A -> M B) (k1 : B -> M C) (w : World) :
  bind (bind m k) k1 w = bind m (fun a => bind (k a) k1) w.
Proof. unfold bind. destruct (m w). reflexivity. Qed.

Lemma exec_seq A B (m : M A) (k : M B) (w : World) :
  exec (m ;;; k) w = exec k (exec m w).
Proof. apply exec_bind. Qed.

Lemma upd_length A (f : A -> A) (l : list A) :
  forall i, List.length (upd i f l) = List.length l.
Proof. induction l as [|x r IH]; intros [|i]; simpl; auto. Qed.

Lemma upd_app_len A (l r : list A) (f : A -> A) (x : A) :
  upd (List.length l) f (l ++ x :: r) = l ++ f x :: r.
Proof. induction l; simpl; congruence. Qed.

Lemma upd_app_plus A (l r : list A) (f : A -> A) (k : nat) :
  upd (List.length l + k) f (l ++ r) = l ++ upd k f r.
Proof. induction l; simpl; [destruct r; reflexivity | congruence]. Qed.

Lemma app_cons_assoc A (l : list A) (x : A) (y r : list A) :
  (l ++ x :: y) ++ r = l ++ x :: (y ++ r).
Proof. rewrite <- app_assoc. reflexivity. Qed.

Lemma nth_error_upd A (f : A -> A) (l : list A) :
  forall i j, nth_error (upd i f l) j =
              if Nat.eqb i j then option_map f (nth_error l j) else nth_error l j.
Proof.
  induction l as [|x r IH]; intros [|i] [|j]; simpl; auto.
  all: destruct (Nat.eqb _ _); destruct j; reflexivity.
Qed.

(** Resolve updates of nodes that were appended to a symbolic node list. *)
Ltac norm_nodes :=
  repeat (rewrite ?app_cons_assoc, ?length_app, ?upd_app_plus, ?upd_app_len,
            <- ?Nat.add_assoc;
          cbn [List.length upd Nat.add app]).

(** Unfold the primitives and the record accessors, and nothing else: list
    and number operations stay folded, and so does [bind]. *)
Ltac prims :=
  cbv beta iota zeta delta
    [ret get modify forEach forEach_from for_count seq
     create createGain createOscillator createBiquadFilter createBufferSource
     with_node set_type set_value set_buffer start stop
     setValueAtTime linearRampToValueAtTime exponentialRampToValueAtTime setTargetAtTime
     connect Math_random random_index setTimeout
     set_Date_now set_rpos set_next_timer set_pending set_currentTime set_nodes set_edges
     set_masterGain set_musicGain set_muted set_isPlaying set_timerIDs
     Date_now random rpos next_timer pending currentTime sampleRate nodes edges
     masterGain musicGain muted isPlaying timerIDs fst snd
     on_param schedule new_node default_param
     kind type param buffer startAt stopAt value events].

(** Run a straight-line computation one [bind] at a time, keeping node names
    in the form [length ns + k]. *)
Ltac eval_monad :=
  unfold exec; prims; norm_nodes;
  repeat (rewrite ?bind_assoc; rewrite bind_eq; prims; norm_nodes).

(* ------------------------------------------------------------------ *)
(** *** What a method may change *)

Lemma grows_refl (w : World) : grows w w.
Proof.
  split; auto. exists []. rewrite app_nil_r. auto.
Qed.

Lemma grows_trans (a b c : World) : grows a b -> grows b c -> grows a c.
Proof.
  intros [m1 u1 l1 (e1 & E1 & F1)] [m2 u2 l2 (e2 & E2 & F2)].
  split; try congruence; try lia.
  exists (e1 ++ e2). split.
  - rewrite E2, E1, app_assoc. reflexivity.
  - apply Forall_app. split; [assumption|].
    eapply Forall_impl; [|exact F2]. cbn. intros; lia.
Qed.

Lemma same_control_refl (w : World) : same_control w w.
Proof. split; reflexivity. Qed.

Lemma same_control_trans (a b c : World) :
  same_control a b -> same_control b c -> same_control a c.
Proof. intros [] []. split; congruence. Qed.

Lemma appends_refl (w : World) : appends w w.
Proof. exists []. rewrite app_nil_r. reflexivity. Qed.

Lemma appends_trans (a b c : World) : appends a b -> appends b c -> appends a c.
Proof.
  intros [n1 E1] [n2 E2]. exists (n1 ++ n2). rewrite E2, E1, app_assoc. reflexivity.
Qed.

Lemma quiet_bind A B (m : M A) (k : A -> M B) :
  quiet_effect m -> (forall a, quiet_effect (k a)) -> quiet_effect (bind m k).
Proof.
  intros Hm Hk w. rewrite exec_bind.
  destruct (Hm w) as (G1 & S1 & A1). unfold exec in G1, S1, A1.
  destruct (Hk (fst (m w)) (snd (m w))) as (G2 & S2 & A2).
  split; [|split];
    [eapply grows_trans | eapply same_control_trans | eapply appends_trans]; eassumption.
Qed.

Lemma quiet_ret A (a : A) : quiet_effect (ret a).
Proof.
  intros w. split; [|split]; [apply grows_refl | apply same_control_refl | apply appends_refl].
Qed.

Lemma quiet_get A (f : World -> A) : quiet_effect (get f).
Proof.
  intros w. split; [|split]; [apply grows_refl | apply same_control_refl | apply appends_refl].
Qed.

Lemma quiet_forEach A (f : A -> nat -> M unit) (l : list A) :
  (forall x i, quiet_effect (f x i)) -> forall i, quiet_effect (forEach_from i l f).
Proof.
  intros Hf. induction l as [|x r IH]; intros i; cbn [forEach_from].
  - apply quiet_ret.
  - apply quiet_bind; [apply Hf | intros _; apply IH].
Qed.

Lemma quiet_random : quiet_effect Math_random.
Proof.
  intros w. unfold exec, Math_random; cbn.
  split; [|split; [split; reflexivity | exists []; cbn; rewrite app_nil_r; reflexivity]].
  split; cbn; auto. exists []. rewrite app_nil_r. auto.
Qed.

Ltac fields :=
  cbv beta iota delta
    [Date_now random rpos next_timer pending currentTime sampleRate nodes edges
     masterGain musicGain muted isPlaying timerIDs].

Ltac graph_effect :=
  split;
  [ split; fields; try reflexivity;
    [ rewrite ?length_app; lia
    | eexists; split; [reflexivity | repeat constructor; cbv [fst]; lia] ]
  | split; [split; reflexivity | eexists; fields; reflexivity] ].

Ltac muted_case :=
  split; [|split]; [apply grows_refl | apply same_control_refl | apply appends_refl].

Lemma noise_samples_eq (n : nat) :
  forall w, noise_samples n w = (noise_list n (random w) (rpos w), set_rpos (n + rpos w) w).
Proof.
  induction n as [|n IH]; intros w.
  - destruct w; reflexivity.
  - cbn [noise_samples noise_list]. unfold bind at 1. unfold Math_random at 1.
    unfold bind at 1. rewrite IH. destruct w; cbn.
    unfold ret, set_rpos; cbn. rewrite Nat.add_succ_r. reflexivity.
Qed.

Lemma createNoiseBuffer_eq (w : World) :
  createNoiseBuffer w =
  (noise_list (sampleRate w * 2) (random w) (rpos w),
   set_rpos (sampleRate w * 2 + rpos w) w).
Proof.
  unfold createNoiseBuffer, bind, get. apply noise_samples_eq.
Qed.

Lemma playPluck_effect (f t v : Q) : quiet_effect (playPluck f t v).
Proof.
  intros [dn rd rp nt pe ct sr ns es ma mu [|] ip ti]; [muted_case|].
  unfold playPluck. eval_monad. graph_effect.
Qed.

Lemma playBass_effect (f t : Q) : quiet_effect (playBass f t).
Proof.
  intros [dn rd rp nt pe ct sr ns es ma mu [|] ip ti]; [muted_case|].
  unfold playBass. eval_monad. graph_effect.
Qed.

Lemma playSnap_effect : quiet_effect playSnap.
Proof.
  intros [dn rd rp nt pe ct sr ns es ma mu [|] ip ti]; [muted_case|].
  unfold playSnap, exec.
  repeat (rewrite ?bind_assoc; rewrite bind_eq; rewrite ?createNoiseBuffer_eq;
          prims; norm_nodes).
  graph_effect.
Qed.

Lemma playScrambleNoise_effect : quiet_effect playScrambleNoise.
Proof.
  unfold playScrambleNoise.
  apply quiet_bind; [apply quiet_get | intros [|]; [apply quiet_ret|]].
  apply quiet_bind; [apply quiet_get | intros t].
  apply quiet_forEach. intros i _.
  intros [dn rd rp nt pe ct sr ns es ma mu mt ip ti].
  eval_monad. graph_effect.
Qed.

Lemma playServo_effect : quiet_effect playServo.
Proof.
  intros [dn rd rp nt pe ct sr ns es ma mu [|] ip ti]; [muted_case|].
  unfold playServo. eval_monad. graph_effect.
Qed.

Lemma playHover_effect : quiet_effect playHover.
Proof.
  intros [dn rd rp nt pe ct sr ns es ma mu [|] ip ti]; [muted_case|].
  unfold playHover. eval_monad. graph_effect.
Qed.

Lemma playSuccess_effect : quiet_effect playSuccess.
Proof.
  unfold playSuccess.
  apply quiet_bind; [apply quiet_get | intros [|]; [apply quiet_ret|]].
  apply quiet_bind; [apply quiet_get | intros t].
  apply quiet_forEach. intros freq i.
  intros [dn rd rp nt pe ct sr ns es ma mu mt ip ti].
  eval_monad. graph_effect.
Qed.

(* ------------------------------------------------------------------ *)
(** *** The two sequencer notes in closed form *)

Lemma playPluck_eq (freq time volume : Q) (w : World) :
  muted w = false ->
  exec (playPluck freq time volume) w =
  let n := List.length (nodes w) in
  add_graph [pluck_osc freq time; pluck_gain time volume]
            [(n, n + 1)%nat; (n + 1, musicGain w)%nat] w.
Proof.
  destruct w as [dn rd rp nt pe ct sr ns es ma mu mt ip ti]. cbn. intros ->.
  unfold playPluck, add_graph. eval_monad. reflexivity.
Qed.

Lemma playBass_eq (freq time : Q) (w : World) :
  muted w = false ->
  exec (playBass freq time) w =
  let n := List.length (nodes w) in
  add_graph [bass_osc freq time; bass_gain time; bass_filter]
            [(n, n + 2)%nat; (n + 2, n + 1)%nat; (n + 1, musicGain w)%nat] w.
Proof.
  destruct w as [dn rd rp nt pe ct sr ns es ma mu mt ip ti]. cbn. intros ->.
  unfold playBass, add_graph. eval_monad. reflexivity.
Qed.

(* ------------------------------------------------------------------ *)
(** *** The sequencer methods in closed form *)

Lemma loop_idle (w : World) : isPlaying w = false -> loop w = (tt, w).
Proof. intros H. unfold loop, bind, get. rewrite H. reflexivity. Qed.

Lemma loop_playing (w : World) :
  isPlaying w = true ->
  exec loop w =
  exec schedule_next (exec (layerB (currentTime w)) (exec (layerA (currentTime w)) w)).
Proof.
  intros H. unfold loop, layerA, layerB, schedule_next, exec.
  rewrite bind_eq. cbn [get fst snd]. rewrite H. cbn [negb].
  repeat rewrite bind_eq. reflexivity.
Qed.

Lemma quiet_random_index (scale : list Q) : quiet_effect (random_index scale).
Proof.
  unfold random_index. apply quiet_bind; [apply quiet_random | intros; apply quiet_ret].
Qed.

Lemma layerA_effect (now : Q) : quiet_effect (layerA now).
Proof.
  unfold layerA. apply quiet_bind; [apply quiet_random | intros r].
  destruct (negb _); [|apply quiet_ret].
  apply quiet_bind; [apply quiet_random_index | intros; apply playPluck_effect].
Qed.

Lemma layerB_effect (now : Q) : quiet_effect (layerB now).
Proof.
  unfold layerB. apply quiet_bind; [apply quiet_get | intros d].
  destruct (bass_gate d); [|apply quiet_ret].
  apply quiet_bind; [apply quiet_random_index | intros; apply playBass_effect].
Qed.

Lemma schedule_next_eq (w : World) :
  exec schedule_next w =
  set_timerIDs (timerIDs w ++ [next_timer w])
    (set_pending (pending w ++ [(next_timer w, (Date_now w + tempo)%Z)])
       (set_next_timer (S (next_timer w)) w)).
Proof. reflexivity. Qed.

Lemma forEach_clearTimeout (ids : list nat) :
  forall i w, forEach_from i ids (fun id _ => clearTimeout id) w =
              (tt, set_pending (cleared ids (pending w)) w).
Proof.
  induction ids as [|id r IH]; intros i w; cbn [forEach_from cleared fold_left].
  - destruct w; reflexivity.
  - rewrite bind_eq. rewrite IH. destruct w; reflexivity.
Qed.

Lemma cleared_In (ids : list nat) :
  forall pend q, In q (cleared ids pend) -> In q pend /\ ~ In (fst q) ids.
Proof.
  induction ids as [|id r IH]; intros pend q H; cbn in *.
  - auto.
  - apply IH in H. destruct H as [H1 H2].
    apply filter_In in H1. destruct H1 as [H1 H3].
    split; [assumption|]. intros [E|E]; [|contradiction].
    subst id. rewrite Nat.eqb_refl in H3. discriminate.
Qed.

Lemma stopMusic_eq (w : World) :
  exec stopMusic w =
  set_timerIDs []
    (set_pending (cleared (timerIDs w) (pending w))
       (set_isPlaying false
          (retarget (musicGain w) (SetTargetAtTime 0 (currentTime w) 0.5) w))).
Proof.
  unfold stopMusic, exec, forEach.
  repeat (rewrite bind_eq; cbn [get fst snd]).
  rewrite forEach_clearTimeout. destruct w; reflexivity.
Qed.

Lemma startMusic_running (w : World) : isPlaying w = true -> startMusic w = (tt, w).
Proof. intros H. unfold startMusic, bind, get. rewrite H. reflexivity. Qed.

Lemma startMusic_idle (w : World) :
  isPlaying w = false ->
  exec startMusic w =
  exec loop
    (retarget (musicGain w) (LinearRampToValueAtTime 0.25 (currentTime w + 2))
       (retarget (musicGain w) (SetValueAtTime 0 (currentTime w))
          (set_isPlaying true w))).
Proof.
  intros H. unfold startMusic, exec.
  rewrite bind_eq. cbn [get fst snd]. rewrite H.
  repeat (rewrite bind_eq; cbn [get fst snd]).
  destruct w; reflexivity.
Qed.

Lemma toggleMute_mute (w : World) :
  muted w = false ->
  toggleMute w =
  (true,
   retarget (musicGain w) (SetTargetAtTime 0 (currentTime w) 0.5)
     (retarget (masterGain w) (SetTargetAtTime 0 (currentTime w) 0.1)
        (set_muted true w))).
Proof.
  intros H. unfold toggleMute.
  rewrite bind_eq. cbn [get fst snd]. rewrite H.
  repeat (rewrite bind_eq; cbn [get fst snd]).
  destruct w; reflexivity.
Qed.

Ltac ctl :=
  cbn [get modify ret fst snd negb
       set_Date_now set_rpos set_next_timer set_pending set_currentTime set_nodes set_edges
       set_masterGain set_musicGain set_muted set_isPlaying set_timerIDs
       Date_now random rpos next_timer pending currentTime sampleRate nodes edges
       masterGain musicGain muted isPlaying timerIDs].

Lemma toggleMute_unmute (w : World) :
  muted w = true ->
  toggleMute w =
  let w1 := retarget (masterGain w) (SetTargetAtTime 0.4 (currentTime w) 0.1)
              (set_muted false w) in
  let w2 := if isPlaying w then w1 else exec startMusic w1 in
  (muted w2, retarget (musicGain w2) (SetTargetAtTime 0.25 (currentTime w2) 1.0) w2).
Proof.
  destruct w as [dn rd rp nt pe ct sr ns es ma mu mt ip ti]. ctl. intros ->.
  unfold toggleMute, retarget, setTargetAtTime, with_node.
  repeat (rewrite bind_eq; ctl).
  destruct ip; ctl.
  - repeat (rewrite bind_eq; ctl). reflexivity.
  - repeat (rewrite bind_eq; ctl). reflexivity.
Qed.

(* effects *)
Lemma retarget_grows (id : nat) (e : AutomationEvent) (w : World) :
  grows w (retarget id e w) /\ same_control w (retarget id e w).
Proof.
  split; [|split; reflexivity].
  split; cbn; auto.
  - rewrite upd_length. lia.
  - exists []. rewrite app_nil_r. auto.
Qed.

Lemma loop_effect (w : World) :
  isPlaying w = true ->
  grows w (exec loop w) /\ ticked w (exec loop w) /\ isPlaying (exec loop w) = true /\
  appends w (exec loop w).
Proof.
  intros H. rewrite (loop_playing w H).
  destruct (layerA_effect (currentTime w) w) as (G1 & S1 & A1).
  destruct (layerB_effect (currentTime w) (exec (layerA (currentTime w)) w))
    as (G2 & S2 & A2).
  pose proof (grows_trans G1 G2) as G. pose proof (same_control_trans S1 S2) as S.
  pose proof (appends_trans A1 A2) as A.
  set (w2 := exec (layerB (currentTime w)) (exec (layerA (currentTime w)) w)) in *.
  rewrite schedule_next_eq.
  destruct G as [gm gu gl ge], S as [s1 s2 s3 s4 s5 s6 s7], A as [ns A].
  split; [|split; [|split]]; [split|split| |exists ns]; cbn; try congruence.
Qed.

(* ------------------------------------------------------------------ *)
(** *** Invariants of reachable states *)

Lemma GraphInv_grows (w w1 : World) : GraphInv w -> grows w w1 -> GraphInv w1.
Proof.
  intros [m u n o1 o2 b] [gm gu gl (es & E & F)].
  split; try congruence; try lia.
  - rewrite E. apply in_or_app. auto.
  - rewrite E. apply in_or_app. auto.
  - intros a c Hin Ha. rewrite E in Hin. apply in_app_or in Hin.
    destruct Hin as [Hin|Hin]; [eauto|].
    rewrite Forall_forall in F. apply F in Hin. cbn in Hin. lia.
Qed.

Lemma TimerInv_same_control (w w1 : World) :
  TimerInv w -> same_control w w1 -> TimerInv w1.
Proof.
  intros [h f i] [s1 s2 s3 s4 s5 s6 s7].
  split; rewrite ?s3, ?s4, ?s6, ?s7; assumption.
Qed.

Lemma TimerInv_ticked (w w1 : World) :
  TimerInv w -> ticked w w1 -> isPlaying w1 = true -> TimerInv w1.
Proof.
  intros [h f i] [t1 t2 t3 t4 t5 t6] P.
  split.
  - intros p Hp. rewrite t1 in Hp. rewrite t2. apply in_or_app.
    apply in_app_or in Hp. destruct Hp as [Hp|[<-|[]]]; [left; auto | right; left; reflexivity].
  - intros p Hp. rewrite t1 in Hp. rewrite t3.
    apply in_app_or in Hp. destruct Hp as [Hp|[<-|[]]]; [apply f in Hp; lia | cbn; lia].
  - congruence.
Qed.

Lemma cleared_handles (w : World) :
  TimerInv w -> cleared (timerIDs w) (pending w) = [].
Proof.
  intros [h _ _].
  destruct (cleared (timerIDs w) (pending w)) as [|q r] eqn:E; [reflexivity|].
  assert (Hq : In q (cleared (timerIDs w) (pending w))) by (rewrite E; left; reflexivity).
  apply cleared_In in Hq. destruct Hq as [H1 H2]. elim H2. auto.
Qed.

Lemma stopMusic_effect (w : World) :
  TimerInv w ->
  grows w (exec stopMusic w) /\
  pending (exec stopMusic w) = [] /\ timerIDs (exec stopMusic w) = [] /\
  isPlaying (exec stopMusic w) = false /\ next_timer (exec stopMusic w) = next_timer w /\
  muted (exec stopMusic w) = muted w /\
  nodes (exec stopMusic w) =
    upd (musicGain w) (on_param (schedule (SetTargetAtTime 0 (currentTime w) 0.5))) (nodes w).
Proof.
  intros T. rewrite stopMusic_eq. cbn. rewrite (cleared_handles T).
  split; [|repeat split; reflexivity].
  split; cbn; auto.
  - rewrite upd_length. lia.
  - exists []. rewrite app_nil_r. auto.
Qed.

Lemma startMusic_effect (w : World) :
  isPlaying w = false ->
  grows w (exec startMusic w) /\ ticked w (exec startMusic w) /\
  isPlaying (exec startMusic w) = true.
Proof.
  intros H. rewrite (startMusic_idle w H).
  set (w1 := retarget _ _ (retarget _ _ (set_isPlaying true w))).
  assert (P1 : isPlaying w1 = true) by reflexivity.
  destruct (loop_effect w1 P1) as (G & [t1 t2 t3 t4 t5 t6] & P & _).
  split; [|split; [|assumption]].
  - eapply grows_trans; [|exact G]. subst w1.
    eapply grows_trans; [|apply retarget_grows].
    eapply grows_trans; [|apply retarget_grows].
    split; cbn; auto. exists []. rewrite app_nil_r. auto.
  - split; assumption.
Qed.

Lemma startMusic_grows (w : World) : grows w (exec startMusic w).
Proof.
  destruct (isPlaying w) eqn:H.
  - unfold exec. rewrite (startMusic_running w H). apply grows_refl.
  - apply startMusic_effect; assumption.
Qed.

Lemma startMusic_TimerInv (w : World) : TimerInv w -> TimerInv (exec startMusic w).
Proof.
  intros T. destruct (isPlaying w) eqn:H.
  - unfold exec. rewrite (startMusic_running w H). assumption.
  - destruct (startMusic_effect w H) as (_ & K & P). eapply TimerInv_ticked; eauto.
Qed.

Lemma toggleMute_effect (w : World) :
  TimerInv w ->
  grows w (exec toggleMute w) /\ TimerInv (exec toggleMute w).
Proof.
  intros T. unfold exec. destruct (muted w) eqn:Hm.
  - rewrite (toggleMute_unmute w Hm). cbn [snd].
    set (w1 := retarget (masterGain w) _ (set_muted false w)).
    assert (G1 : grows w w1).
    { subst w1. eapply grows_trans; [|apply retarget_grows].
      split; cbn; auto. exists []. rewrite app_nil_r. auto. }
    assert (T1 : TimerInv w1).
    { destruct T as [h f i]. split; assumption. }
    assert (P1 : isPlaying w1 = isPlaying w) by reflexivity.
    set (w2 := if isPlaying w then w1 else exec startMusic w1).
    assert (G2 : grows w1 w2 /\ TimerInv w2).
    { subst w2. destruct (isPlaying w) eqn:P.
      - split; [apply grows_refl | assumption].
      - split; [apply startMusic_grows | apply startMusic_TimerInv; assumption]. }
    destruct G2 as [G2 T2].
    split.
    + eapply grows_trans; [exact G1|]. eapply grows_trans; [exact G2|]. apply retarget_grows.
    + eapply TimerInv_same_control; [exact T2 | apply retarget_grows].
  - rewrite (toggleMute_mute w Hm). cbn [snd].
    split.
    + eapply grows_trans; [|apply retarget_grows].
      eapply grows_trans; [|apply retarget_grows].
      split; cbn; auto. exists []. rewrite app_nil_r. auto.
    + eapply TimerInv_same_control; [|apply retarget_grows].
      eapply TimerInv_same_control; [|apply retarget_grows].
      destruct T as [h f i]. split; assumption.
Qed.

Lemma call_effect (c : Call) (w : World) :
  TimerInv w -> grows w (exec (do_call c) w) /\ TimerInv (exec (do_call c) w).
Proof.
  intros T.
  assert (Q : forall m : M unit, quiet_effect m -> grows w (exec m w) /\ TimerInv (exec m w)).
  { intros m Hm. destruct (Hm w) as (G & S & _). split; [assumption|].
    eapply TimerInv_same_control; eassumption. }
  destruct c; cbn [do_call].
  - split; [apply startMusic_grows | apply startMusic_TimerInv; assumption].
  - destruct (stopMusic_effect T) as (G & P & I & Pl & N & _).
    split; [assumption|]. split.
    + rewrite P. intros p [].
    + rewrite P. intros p [].
    + intros _. assumption.
  - rewrite exec_seq. unfold exec at 1 3. cbn [ret snd]. apply toggleMute_effect. assumption.
  - apply Q, playPluck_effect.
  - apply Q, playBass_effect.
  - apply Q, playSnap_effect.
  - apply Q, playScrambleNoise_effect.
  - apply Q, playServo_effect.
  - apply Q, playHover_effect.
  - apply Q, playSuccess_effect.
Qed.

Lemma filter_In_sub A (f : A -> bool) (l : list A) (x : A) : In x (filter f l) -> In x l.
Proof. intros H. apply filter_In in H. tauto. Qed.

Lemma fire_effect (id : nat) (w : World) :
  TimerInv w ->
  grows w (exec (clearTimeout id ;;; loop) w) /\ TimerInv (exec (clearTimeout id ;;; loop) w).
Proof.
  intros T. rewrite exec_seq.
  set (w1 := exec (clearTimeout id) w).
  assert (G1 : grows w w1).
  { subst w1. split; cbn; auto. exists []. rewrite app_nil_r. auto. }
  assert (T1 : TimerInv w1).
  { destruct T as [h f i]. subst w1. split; cbn.
    - intros p Hp. apply filter_In_sub in Hp. auto.
    - intros p Hp. apply filter_In_sub in Hp. auto.
    - assumption. }
  destruct (isPlaying w1) eqn:P.
  - destruct (loop_effect w1 P) as (G & K & P2 & _).
    split; [eapply grows_trans; eassumption | eapply TimerInv_ticked; eassumption].
  - unfold exec at 1 2. rewrite (loop_idle w1 P). cbn [snd]. split; assumption.
Qed.

Lemma step_effect (l : Label) (w w1 : World) :
  step l w = Some w1 -> TimerInv w -> grows w w1 /\ TimerInv w1.
Proof.
  intros H T. destruct l as [c|ms dt|id]; cbn [step] in H.
  - injection H as <-. apply call_effect. assumption.
  - destruct (_ && _); [|discriminate]. injection H as <-.
    split.
    + split; cbn; auto. exists []. rewrite app_nil_r. auto.
    + destruct T as [h f i]. split; assumption.
  - destruct (due_of id w); [|discriminate].
    destruct (_ <=? _)%Z; [|discriminate]. injection H as <-.
    apply fire_effect. assumption.
Qed.

Lemma new_SoundEngine_inv (e : Env) :
  GraphInv (new_SoundEngine e) /\ TimerInv (new_SoundEngine e).
Proof.
  split; split; cbn; auto; try lia;
    try (intros a b [E|[E|[]]]; injection E; intros; subst; reflexivity);
    intros p [].
Qed.

Lemma reachable_inv (w : World) : reachable w -> GraphInv w /\ TimerInv w.
Proof.
  induction 1 as [e | l w w1 R [G T] S].
  - apply new_SoundEngine_inv.
  - destruct (step_effect l S T) as [G1 T1].
    split; [eapply GraphInv_grows; eassumption | assumption].
Qed.

(* ------------------------------------------------------------------ *)
(** *** What one tick synthesises *)

Ltac world_fields :=
  cbn [Math_random get fst snd negb andb
       set_Date_now set_rpos set_next_timer set_pending set_currentTime set_nodes set_edges
       set_masterGain set_musicGain set_muted set_isPlaying set_timerIDs
       Date_now random rpos next_timer pending currentTime sampleRate nodes edges
       masterGain musicGain muted isPlaying timerIDs].

Lemma layerA_nodes (now : Q) (w : World) :
  nodes (exec (layerA now) w) = nodes w ++ melody_nodes now w.
Proof.
  destruct w as [dn rd rp nt pe ct sr ns es ma mu mt ip ti].
  unfold layerA, melody_nodes, melody_gate, picked, playPluck, exec.
  rewrite bind_eq. world_fields.
  destruct (negb (Qle_bool _ _)); destruct mt; world_fields; eval_monad;
    first [reflexivity | symmetry; apply app_nil_r].
Qed.

Lemma layerB_nodes (now : Q) (w : World) :
  nodes (exec (layerB now) w) = nodes w ++ bass_nodes now w.
Proof.
  destruct w as [dn rd rp nt pe ct sr ns es ma mu mt ip ti].
  unfold layerB, bass_nodes, picked, playBass, exec.
  rewrite bind_eq. world_fields.
  destruct (bass_gate dn); destruct mt; world_fields; eval_monad;
    first [reflexivity | symmetry; apply app_nil_r].
Qed.

Lemma loop_nodes (w : World) :
  isPlaying w = true -> nodes (exec loop w) = nodes w ++ tick_nodes w.
Proof.
  intros H. rewrite (loop_playing w H). rewrite schedule_next_eq.
  cbn [nodes set_timerIDs set_pending set_next_timer].
  rewrite layerB_nodes, layerA_nodes. unfold tick_nodes. rewrite app_assoc. reflexivity.
Qed.

Lemma created_app (w w1 : World) (ns : list AudioNode) :
  nodes w1 = nodes w ++ ns -> created w w1 = ns.
Proof.
  intros E. unfold created. rewrite E. rewrite skipn_app, skipn_all, Nat.sub_diag.
  reflexivity.
Qed.

Lemma bass_nodes_count (now : Q) (w : World) :
  count_osc "triangle" (bass_nodes now w) =
  (if negb (muted w) && bass_gate (Date_now w) then 1 else 0)%nat /\
  count_osc "sine" (bass_nodes now w) = 0%nat /\
  List.length (filter is_source (bass_nodes now w)) =
  (if negb (muted w) && bass_gate (Date_now w) then 1 else 0)%nat.
Proof.
  unfold bass_nodes. destruct (_ && _); repeat split.
Qed.

Lemma melody_nodes_count (now : Q) (w : World) :
  count_osc "sine" (melody_nodes now w) =
  (if negb (muted w) && melody_gate w then 1 else 0)%nat /\
  count_osc "triangle" (melody_nodes now w) = 0%nat /\
  List.length (filter is_source (melody_nodes now w)) =
  (if negb (muted w) && melody_gate w then 1 else 0)%nat.
Proof.
  unfold melody_nodes. destruct (_ && _); repeat split.
Qed.

Lemma bass_gate_div (d : Z) : bass_gate d = (Z.rem (d / 150) 8 =? 0)%Z.
Proof.
  unfold bass_gate, Math_floor, tempo. 
  replace (Qfloor (inject_Z d / inject_Z 150)) with (d / 150)%Z; [reflexivity|].
  unfold Qfloor, Qdiv, Qmult, Qinv, inject_Z. cbn. rewrite Z.mul_1_r. reflexivity.
Qed.

(* ================================================================== *)
(** ** Properties of the sequencer *)
(* ================================================================== *)

Lemma reachable_running : reachable w_running.
Proof.
  apply (@reach_step (LCall call_startMusic) (new_SoundEngine env0)).
  - apply reach_new.
  - vm_compute. reflexivity.
Qed.

Lemma due_of_none (id : nat) (w : World) : pending w = [] -> due_of id w = None.
Proof. intros H. unfold due_of. rewrite H. reflexivity. Qed.

Lemma silent_run (ls : list Label) :
  forall w w1, pending w = [] -> forallb (fun l => negb (is_call l)) ls = true ->
               run ls w = Some w1 ->
               fires ls = 0%nat /\ nodes w1 = nodes w /\ edges w1 = edges w /\
               pending w1 = [] /\ timerIDs w1 = timerIDs w /\ isPlaying w1 = isPlaying w.
Proof.
  induction ls as [|l r IH]; intros w w1 P C R.
  - injection R as <-. repeat split; try reflexivity. assumption.
  - cbn [forallb] in C. apply andb_prop in C. destruct C as [C1 C2].
    cbn [run] in R. destruct l as [c|ms dt|id]; try discriminate C1.
    + cbn [step] in R. destruct (_ && _); [|discriminate].
      apply IH in R; [|assumption|assumption]. cbn in R. exact R.
    + cbn [step] in R. rewrite (due_of_none id w P) in R. discriminate.
Qed.

Lemma elapse_run (ds : list (Z * Q)) :
  forall w, forallb forward ds = true -> exists w1, run (map elapse ds) w = Some w1.
Proof.
  induction ds as [|d r IH]; intros w F.
  - exists w. reflexivity.
  - cbn [forallb] in F. apply andb_prop in F. destruct F as [F1 F2].
    cbn [map run elapse step]. unfold forward in F1. rewrite F1. apply IH. assumption.
Qed.

(** C1: once [stopMusic] has returned, no scheduled tick callback can run
    and no note is triggered, however much time passes: the timer queue holds
    no [loop] callback, every continuation of the event loop without further
    calls consists of time passing only and leaves the audio graph as it was
    when [stopMusic] returned, and time can pass for any length. *)
Theorem C1_stop_cancels_every_tick (w : World) :
  reachable w ->
  let w0 := exec stopMusic w in
  pending w0 = [] /\
  (forall ls w1, forallb (fun l => negb (is_call l)) ls = true ->
                 run ls w0 = Some w1 ->
                 fires ls = 0%nat /\ nodes w1 = nodes w0 /\ edges w1 = edges w0 /\
                 notes w1 = notes w0 /\ forall id, step (LFire id) w1 = None) /\
  (forall ds, forallb forward ds = true ->
              exists w1, run (map elapse ds) w0 = Some w1 /\ notes w1 = notes w0).
Proof.
  intros R w0. destruct (reachable_inv R) as [_ T].
  destruct (stopMusic_effect T) as (_ & P & _).
  fold w0 in P. split; [exact P|]. split.
  - intros ls w1 C Hrun.
    destruct (@silent_run ls w0 w1 P C Hrun) as (F & N & E & P1 & _).
    repeat split; try assumption.
    + unfold notes. rewrite N. reflexivity.
    + intros id. cbn [step]. rewrite (due_of_none id w1 P1). reflexivity.
  - intros ds F. destruct (elapse_run ds w0 F) as [w1 Hrun]. exists w1.
    split; [assumption|].
    assert (C : forallb (fun l => negb (is_call l)) (map elapse ds) = true).
    { clear. induction ds; cbn; auto. }
    destruct (@silent_run _ w0 w1 P C Hrun) as (_ & N & _).
    unfold notes. rewrite N. reflexivity.
Qed.

Lemma C1_witness :
  reachable w_running /\
  pending (exec stopMusic w_running) = [] /\
  exists w1, run (map elapse [(1000%Z, 1); (5000%Z, 5)]) (exec stopMusic w_running) = Some w1 /\
             notes w1 = notes (exec stopMusic w_running).
Proof.
  split; [exact reachable_running|].
  destruct (C1_stop_cancels_every_tick reachable_running) as (P & _ & E).
  split; [exact P|]. apply E. vm_compute. reflexivity.
Defined.

(** C4: [startMusic] on an engine that is already playing returns at once
    and leaves the whole state as it was: no ramp, no loop, no timer. *)
Theorem C4_startMusic_idempotent (w : World) :
  isPlaying w = true -> startMusic w = (tt, w).
Proof.
  intros H. unfold startMusic, bind, get. rewrite H. reflexivity.
Qed.

Lemma C4_witness :
  isPlaying w_running = true /\ startMusic w_running = (tt, w_running).
Proof.
  split; [vm_compute; reflexivity | apply C4_startMusic_idempotent; vm_compute; reflexivity].
Defined.

(** C5: each of the five one-shot triggers, called while muted, returns at
    once: the state is unchanged, so no node is created and nothing is
    scheduled. *)
Theorem C5_one_shots_suppressed_when_muted (m : M unit) (w : World) :
  In m one_shots -> muted w = true -> m w = (tt, w).
Proof.
  intros Hin Hm. cbn in Hin.
  repeat (destruct Hin as [<- | Hin];
          [ cbv beta delta [playSnap playScrambleNoise playServo playHover playSuccess
                            bind get]; rewrite Hm; reflexivity | ]).
  contradiction.
Qed.

Lemma C5_witness :
  In playSnap one_shots /\ muted w_muted = true /\ playSnap w_muted = (tt, w_muted).
Proof.
  split; [left; reflexivity|]. split; [vm_compute; reflexivity|].
  apply C5_one_shots_suppressed_when_muted; [left; reflexivity | vm_compute; reflexivity].
Defined.

(** C8: on an unmuted engine [playPluck freq time volume] adds exactly two
    nodes: a sine oscillator at [freq], started at [time] and stopped at
    [time + 0.6], and a gain whose envelope is set to 0 at [time], rises
    linearly to [volume] at [time + 0.01] and falls exponentially to 0.001 at
    [time + 0.5]; the oscillator feeds the gain and the gain the music bus. *)
Theorem C8_pluck_recipe (freq time volume : Q) (w : World) :
  muted w = false ->
  let w1 := exec (playPluck freq time volume) w in
  let n := List.length (nodes w) in
  nodes w1 = nodes w ++
    [ mkNode OscillatorNode "sine" (mkParam freq []) None (Some time) (Some (time + 0.6));
      mkNode GainNode EmptyString
        (mkParam 1 [SetValueAtTime 0 time;
                    LinearRampToValueAtTime volume (time + 0.01);
                    ExponentialRampToValueAtTime 0.001 (time + 0.5)])
        None None None ] /\
  edges w1 = edges w ++ [(n, n + 1)%nat; (n + 1, musicGain w)%nat] /\
  same_control w w1.
Proof.
  intros H w1 n. subst w1. rewrite (playPluck_eq freq time volume w H).
  repeat split.
Qed.

Lemma C8_witness :
  muted (new_SoundEngine env0) = false /\
  nodes (exec (playPluck 440 1 0.08) (new_SoundEngine env0)) =
  nodes (new_SoundEngine env0) ++
    [ mkNode OscillatorNode "sine" (mkParam 440 []) None (Some 1) (Some (1 + 0.6));
      mkNode GainNode EmptyString
        (mkParam 1 [SetValueAtTime 0 1;
                    LinearRampToValueAtTime 0.08 (1 + 0.01);
                    ExponentialRampToValueAtTime 0.001 (1 + 0.5)])
        None None None ].
Proof.
  split; [vm_compute; reflexivity|].
  apply (C8_pluck_recipe 440 1 0.08 (new_SoundEngine env0)). vm_compute. reflexivity.
Defined.

Lemma count_osc_app (ty : string) (a b : list AudioNode) :
  count_osc ty (a ++ b) = (count_osc ty a + count_osc ty b)%nat.
Proof. unfold count_osc. rewrite filter_app, length_app. reflexivity. Qed.

Lemma tick_nodes_count (w : World) :
  count_osc "sine" (tick_nodes w) = melody_count w /\
  count_osc "triangle" (tick_nodes w) = bass_count w /\
  List.length (filter is_source (tick_nodes w)) = (melody_count w + bass_count w)%nat.
Proof.
  unfold tick_nodes, melody_count, bass_count.
  destruct (layerA_effect (currentTime w) w) as (_ & [s1 s2 s3 s4 s5 s6 s7] & _).
  destruct (melody_nodes_count (currentTime w) w) as (m1 & m2 & m3).
  destruct (bass_nodes_count (currentTime w) (exec (layerA (currentTime w)) w))
    as (b1 & b2 & b3).
  rewrite s1, s5 in b1, b3.
  rewrite !count_osc_app, filter_app, length_app, m1, m2, m3, b1, b2, b3.
  repeat split; lia.
Qed.

Lemma sources_upd (f : AudioParam -> AudioParam) (l : list AudioNode) :
  forall i, List.length (filter is_source (upd i (on_param f) l)) =
            List.length (filter is_source l).
Proof.
  assert (S : forall x, is_source (on_param f x) = is_source x) by reflexivity.
  induction l as [|x r IH]; intros [|i]; cbn [upd filter]; auto.
  - rewrite S. destruct (is_source x); reflexivity.
  - destruct (is_source x); cbn [List.length]; rewrite IH; reflexivity.
Qed.

Lemma notes_retarget (id : nat) (e : AutomationEvent) (w : World) :
  notes (retarget id e w) = notes w.
Proof. unfold notes, retarget. cbn [nodes set_nodes]. apply sources_upd. Qed.

Lemma notes_loop (w : World) :
  isPlaying w = true ->
  notes (exec loop w) = (notes w + melody_count w + bass_count w)%nat.
Proof.
  intros H. unfold notes. rewrite (loop_nodes w H), filter_app, length_app.
  destruct (tick_nodes_count w) as (_ & _ & ->). lia.
Qed.

Lemma notes_startMusic (w : World) :
  isPlaying w = false ->
  notes (exec startMusic w) = (notes w + melody_count w + bass_count w)%nat.
Proof.
  intros H. rewrite (startMusic_idle w H).
  rewrite notes_loop by reflexivity.
  rewrite !notes_retarget. reflexivity.
Qed.

Lemma notes_stopMusic (w : World) : notes (exec stopMusic w) = notes w.
Proof.
  rewrite stopMusic_eq. unfold notes. cbn [nodes set_timerIDs set_pending set_isPlaying].
  apply notes_retarget.
Qed.

Lemma param_events_retarget (id : nat) (e : AutomationEvent) (w : World) :
  (id < List.length (nodes w))%nat ->
  param_events id (retarget id e w) = param_events id w ++ [e].
Proof.
  intros H. unfold param_events, retarget. cbn [nodes set_nodes].
  rewrite nth_error_upd, Nat.eqb_refl.
  destruct (nth_error (nodes w) id) eqn:E; [reflexivity|].
  apply nth_error_None in E. lia.
Qed.

Lemma param_events_retarget_other (id j : nat) (e : AutomationEvent) (w : World) :
  id <> j -> param_events j (retarget id e w) = param_events j w.
Proof.
  intros H. unfold param_events, retarget. cbn [nodes set_nodes].
  rewrite nth_error_upd. apply Nat.eqb_neq in H. rewrite H. reflexivity.
Qed.

(** C6, amended: on every tick of a playing engine the bass pulse is gated
    by the wall clock alone: one triangle oscillator is created exactly when
    the engine is unmuted and [floor(Date.now() / 150)] is a multiple of 8,
    whatever the number of ticks executed so far; the melodic pluck of the
    same tick is decided independently by the next random draw. *)
Theorem C6_bass_gated_by_wall_clock (w : World) :
  isPlaying w = true ->
  let w1 := exec loop w in
  count_osc "triangle" (created w w1) =
    (if negb (muted w) && (Z.rem (Date_now w / 150) 8 =? 0)%Z then 1 else 0)%nat /\
  count_osc "sine" (created w w1) =
    (if negb (muted w) && melody_gate w then 1 else 0)%nat.
Proof.
  intros H w1. subst w1.
  rewrite (@created_app w (exec loop w) _ (loop_nodes w H)).
  destruct (tick_nodes_count w) as (A & B & _).
  rewrite A, B. unfold bass_count, melody_count. rewrite bass_gate_div. split; reflexivity.
Qed.

Lemma C6_witness :
  isPlaying w_running = true /\
  count_osc "triangle" (created w_running (exec loop w_running)) = 0%nat.
Proof.
  split; [vm_compute; reflexivity|].
  apply (C6_bass_gated_by_wall_clock w_running). vm_compute. reflexivity.
Defined.

(** C6, counterexample: an engine created when [Date.now()] is 300 and
    started at once, with timers firing on time.  The only bass pulse of the
    first ten ticks is on the seventh tick, the one that runs when
    [Date.now()] is 1200; the tick numbered 8 has none, whether ticks are
    counted from 0 or from 1.  And a tick that runs while the engine is
    muted creates no bass pulse even when [floor(Date.now() / 150)] is a
    multiple of 8. *)
Lemma C6_counterexample :
  first_ticks env0 = [0; 0; 0; 0; 0; 0; 1; 0; 0; 0]%nat /\
  ~ bass_on_multiples_of_8 0 (first_ticks env0) /\
  ~ bass_on_multiples_of_8 1 (first_ticks env0) /\
  (run muted_run (new_SoundEngine env1200) = Some w_muted_tick /\
   isPlaying w_muted_tick = true /\
   Z.rem (Date_now w_muted_tick / 150) 8 = 0%Z /\
   count_osc "triangle" (created w_muted_tick (exec loop w_muted_tick)) = 0%nat).
Proof.
  assert (E : first_ticks env0 = [0; 0; 0; 0; 0; 0; 1; 0; 0; 0]%nat)
    by (vm_compute; reflexivity).
  split; [exact E|]. rewrite E. split; [|split]; [intros H | intros H |].
  - specialize (H 6%nat). cbn in H. specialize (H ltac:(lia)). discriminate.
  - specialize (H 6%nat). cbn in H. specialize (H ltac:(lia)). discriminate.
  - repeat split; vm_compute; reflexivity.
Qed.

(** C3, counterexample: with a first random draw of 0.5 the tick that
    [startMusic] runs itself plays a pluck, so one note has been triggered
    by the time [stopMusic] returns. *)
Lemma C3_counterexample :
  notes (new_SoundEngine env0) = 0%nat /\ notes (start_then_stop env0) = 1%nat.
Proof. split; vm_compute; reflexivity. Qed.

Lemma new_SoundEngine_eq (e : Env) :
  new_SoundEngine e =
  mkWorld (env_now e) (env_random e) 0 1 [] 0 (env_sampleRate e)
          [new_node Destination EmptyString 0;
           mkNode GainNode EmptyString (mkParam 0.4 []) None None None;
           mkNode GainNode EmptyString (mkParam 0 []) None None None]
          [(1, 0); (2, 0)]%nat 1 2 false false [].
Proof. reflexivity. Qed.

(** C3, amended: [startMusic] runs the first tick itself.  On a fresh
    engine, [start()] followed by [stop()] within 150 ms therefore leaves
    exactly the notes of that one tick (a pluck if the first random draw
    exceeds 0.3, a bass pulse if [floor(Date.now() / 150)] is a multiple of
    8); no timer callback can run in between, none is pending afterwards, and
    the last automation call on the music bus is the ramp toward 0. *)
Theorem C3_start_then_stop (e : Env) (ms : Z) (dt : Q) :
  (0 <= ms < 150)%Z -> Qle_bool 0 dt = true ->
  let w0 := new_SoundEngine e in
  let w1 := exec startMusic w0 in
  exists w2, step (LElapse ms dt) w1 = Some w2 /\
             (forall id, step (LFire id) w2 = None) /\
             let w3 := exec stopMusic w2 in
             notes w3 =
               ((if negb (Qle_bool (draw (env_random e 0)) 0.3) then 1 else 0) +
                (if bass_gate (env_now e) then 1 else 0))%nat /\
             pending w3 = [] /\ isPlaying w3 = false /\
             exists evs, param_events (musicGain w3) w3 =
                         evs ++ [SetTargetAtTime 0 (currentTime w2) 0.5].
Proof.
  intros Hms Hdt w0 w1.
  assert (R1 : reachable w1).
  { apply (@reach_step (LCall call_startMusic) w0); [apply reach_new | reflexivity]. }
  assert (I0 : isPlaying w0 = false) by reflexivity.
  destruct (startMusic_effect w0 I0) as (G & [t1 t2 t3 t4 t5 t6] & P1).
  fold w1 in G, t1, t2, t3, t4, t5, t6, P1.
  cbn [step]. replace (0 <=? ms)%Z with true by (symmetry; apply Z.leb_le; lia).
  rewrite Hdt. cbn [andb]. eexists. split; [reflexivity|].
  set (w2 := set_currentTime _ _).
  assert (R2 : reachable w2).
  { apply (@reach_step (LElapse ms dt) w1); [exact R1|].
    cbn [step]. replace (0 <=? ms)%Z with true by (symmetry; apply Z.leb_le; lia).
    rewrite Hdt. reflexivity. }
  destruct (reachable_inv R2) as [G2 T2].
  split.
  - intros id. cbn [step]. unfold due_of. subst w2. cbn [pending set_currentTime set_Date_now Date_now].
    rewrite t1. unfold w0 at 1 2. rewrite new_SoundEngine_eq. cbn [pending next_timer app find fst snd].
    destruct (Nat.eqb 1 id); [|reflexivity].
    rewrite t4. unfold tempo.
    replace (_ <=? _)%Z with false; [reflexivity|].
    symmetry. apply Z.leb_gt. cbn [snd]. lia.
  - set (w3 := exec stopMusic w2). destruct (stopMusic_effect T2) as (_ & P3 & _ & I3 & _ & _ & N3).
    fold w3 in P3, I3, N3.
    split; [|split; [exact P3 | split; [exact I3|]]].
    + unfold w3. rewrite notes_stopMusic. unfold notes at 1. subst w2.
      cbn [nodes set_currentTime set_Date_now]. fold (notes w1). unfold w1.
      rewrite (notes_startMusic w0 I0). reflexivity.
    + assert (M : musicGain w3 = musicGain w2) by (unfold w3; rewrite stopMusic_eq; reflexivity).
      rewrite M. exists (param_events (musicGain w2) w2).
      unfold w3. rewrite stopMusic_eq.
      unfold param_events at 1. cbn [nodes set_timerIDs set_pending set_isPlaying].
      fold (param_events (musicGain w2)
              (retarget (musicGain w2) (SetTargetAtTime 0 (currentTime w2) 0.5) w2)).
      apply param_events_retarget.
      destruct G2 as [gm gu gn _ _ _]. rewrite gu. lia.
Qed.

Lemma C3_witness :
  (0 <= 100 < 150)%Z /\ Qle_bool 0 0.1 = true /\
  exists w2, step (LElapse 100 0.1) (exec startMusic (new_SoundEngine env_quiet)) = Some w2 /\
             notes (exec stopMusic w2) = 0%nat.
Proof.
  split; [lia|]. split; [reflexivity|].
  destruct (@C3_start_then_stop env_quiet 100 0.1 ltac:(lia) eq_refl) as (w2 & S & _ & N & _).
  exists w2. split; [exact S|]. rewrite N. vm_compute. reflexivity.
Defined.

Lemma toggleMute_playing (w : World) :
  isPlaying w = true ->
  timerIDs (exec toggleMute w) = timerIDs w /\
  pending (exec toggleMute w) = pending w /\
  isPlaying (exec toggleMute w) = true /\
  List.length (nodes (exec toggleMute w)) = List.length (nodes w).
Proof.
  intros H. unfold exec. destruct (muted w) eqn:Hm.
  - rewrite (toggleMute_unmute w Hm). rewrite H. cbn.
    rewrite !upd_length. auto.
  - rewrite (toggleMute_mute w Hm). cbn. rewrite !upd_length. auto.
Qed.

Lemma call_playing (c : Call) (w : World) :
  c <> call_stopMusic -> isPlaying w = true ->
  timerIDs (exec (do_call c) w) = timerIDs w /\
  pending (exec (do_call c) w) = pending w /\
  isPlaying (exec (do_call c) w) = true.
Proof.
  intros Hc H.
  assert (Q : forall m : M unit, quiet_effect m ->
                timerIDs (exec m w) = timerIDs w /\ pending (exec m w) = pending w /\
                isPlaying (exec m w) = true).
  { intros m Hm. destruct (Hm w) as (_ & [s1 s2 s3 s4 s5 s6 s7] & _).
    repeat split; congruence. }
  destruct c; cbn [do_call].
  - unfold exec. rewrite (startMusic_running w H). auto.
  - congruence.
  - rewrite exec_seq. unfold exec at 1 3 5. cbn [ret snd].
    destruct (toggleMute_playing w H) as (A & B & C & _). auto.
  - apply Q, playPluck_effect.
  - apply Q, playBass_effect.
  - apply Q, playSnap_effect.
  - apply Q, playScrambleNoise_effect.
  - apply Q, playServo_effect.
  - apply Q, playHover_effect.
  - apply Q, playSuccess_effect.
Qed.

Lemma due_of_In (id : nat) (w : World) (due : Z) :
  due_of id w = Some due -> In (id, due) (pending w).
Proof.
  unfold due_of. destruct (find _ _) as [[i d]|] eqn:E; [|discriminate].
  intros [= <-]. apply find_some in E. destruct E as [E1 E2].
  cbn in E2. apply Nat.eqb_eq in E2. subst. assumption.
Qed.

Lemma fire_playing (id : nat) (w : World) :
  isPlaying w = true ->
  let w1 := exec (clearTimeout id ;;; loop) w in
  timerIDs w1 = timerIDs w ++ [next_timer w] /\ isPlaying w1 = true /\
  pending w1 = filter (fun p => negb (Nat.eqb (fst p) id)) (pending w) ++
               [(next_timer w, (Date_now w + tempo)%Z)].
Proof.
  intros H w1. subst w1. rewrite exec_seq.
  set (w0 := exec (clearTimeout id) w).
  assert (P0 : isPlaying w0 = true) by exact H.
  destruct (loop_effect w0 P0) as (_ & [t1 t2 t3 t4 t5 t6] & P & _).
  repeat split; assumption.
Qed.

(** While the engine plays and [stopMusic] is not called, [timerIDs] only
    grows, by one handle per timer fired, and keeps every fired handle. *)
Lemma playing_run (ls : list Label) :
  forall w w1,
    TimerInv w -> isPlaying w = true -> forallb no_stop ls = true ->
    run ls w = Some w1 ->
    isPlaying w1 = true /\
    (exists new, timerIDs w1 = timerIDs w ++ new /\ List.length new = fires ls) /\
    (forall id, In (LFire id) ls -> In id (timerIDs w1)).
Proof.
  induction ls as [|l r IH]; intros w w1 T P N R.
  - injection R as <-. split; [assumption|]. split.
    + exists []. rewrite app_nil_r. split; reflexivity.
    + intros id [].
  - cbn [forallb] in N. apply andb_prop in N. destruct N as [N1 N2].
    cbn [run] in R. destruct (step l w) as [w0|] eqn:S; [|discriminate].
    destruct (@step_effect l w w0 S T) as [_ T0].
    assert (K : isPlaying w0 = true /\
                exists new, timerIDs w0 = timerIDs w ++ new /\
                            List.length new = (if is_fire l then 1 else 0)%nat).
    { destruct l as [c|ms dt|id]; cbn [step] in S.
      - injection S as <-.
        assert (Hc : c <> call_stopMusic) by (intros ->; discriminate).
        destruct (@call_playing c w Hc P) as (A & _ & C).
        split; [assumption|]. exists []. rewrite app_nil_r. auto.
      - destruct (_ && _); [|discriminate]. injection S as <-.
        split; [assumption|]. exists []. rewrite app_nil_r. auto.
      - destruct (due_of id w); [|discriminate].
        destruct (_ <=? _)%Z; [|discriminate]. injection S as <-.
        destruct (fire_playing id w P) as (A & B & _).
        split; [assumption|]. exists [next_timer w]. auto. }
    destruct K as (P0 & new0 & E0 & L0).
    destruct (IH w0 w1 T0 P0 N2 R) as (P1 & (new1 & E1 & L1) & F1).
    split; [assumption|]. split.
    + exists (new0 ++ new1). split.
      * rewrite E1, E0, app_assoc. reflexivity.
      * rewrite length_app, L0, L1. unfold fires. cbn [filter].
        destruct (is_fire l); reflexivity.
    + intros id [->|Hin]; [|auto].
      cbn [step] in S. destruct (due_of id w) as [due|] eqn:D; [|discriminate].
      apply due_of_In in D. destruct T as [h _ _]. apply h in D. cbn in D.
      rewrite E1, E0. apply in_or_app. left. apply in_or_app. left. assumption.
Qed.

(** A playing engine with a pending timer can always run one more tick. *)
Lemma one_more_tick (w : World) :
  isPlaying w = true -> pending w <> [] ->
  exists ls w1, forallb no_stop ls = true /\ fires ls = 1%nat /\
                run ls w = Some w1 /\ isPlaying w1 = true /\ pending w1 <> [].
Proof.
  intros P N. destruct (pending w) as [|[id due] rest] eqn:E; [congruence|].
  exists [LElapse (Z.max 0 (due - Date_now w)) 0; LFire id]. eexists.
  split; [reflexivity|]. split; [reflexivity|].
  cbn [run step].
  replace (0 <=? Z.max 0 (due - Date_now w))%Z with true by (symmetry; apply Z.leb_le; lia).
  cbn [andb Qle_bool Qnum Qden Z.mul Z.leb Z.compare].
  unfold due_of. cbn [pending set_currentTime set_Date_now Date_now].
  rewrite E. cbn [find fst snd]. rewrite Nat.eqb_refl.
  replace (due <=? _)%Z with true by (symmetry; apply Z.leb_le; lia).
  split; [reflexivity|].
  set (w0 := set_currentTime _ _).
  destruct (fire_playing id w0 P) as (_ & B & C).
  split; [assumption|]. rewrite C. intros Habs.
  apply app_eq_nil in Habs. destruct Habs as [_ Habs]. discriminate.
Qed.

Lemma run_app (a b : list Label) :
  forall w w1 w2, run a w = Some w1 -> run b w1 = Some w2 -> run (a ++ b) w = Some w2.
Proof.
  induction a as [|l r IH]; intros w w1 w2 R1 R2.
  - injection R1 as <-. assumption.
  - cbn [run app] in *. destruct (step l w); [eauto | discriminate].
Qed.

Lemma many_ticks (n : nat) :
  forall w, isPlaying w = true -> pending w <> [] ->
            exists ls w1, forallb no_stop ls = true /\ fires ls = n /\ run ls w = Some w1.
Proof.
  induction n as [|n IH]; intros w P N.
  - exists [], w. auto.
  - destruct (@one_more_tick w P N) as (l1 & w1 & N1 & F1 & R1 & P1 & E1).
    destruct (IH w1 P1 E1) as (l2 & w2 & N2 & F2 & R2).
    exists (l1 ++ l2), w2. split; [|split].
    + rewrite forallb_app, N1, N2. reflexivity.
    + unfold fires in *. rewrite filter_app, length_app, F1, F2. reflexivity.
    + eapply run_app; eassumption.
Qed.

(** C10: from [start()] on an idle engine, and as long as [stopMusic] is not
    called, [timerIDs] holds exactly one handle per executed tick: one for
    the tick [startMusic] runs itself and one more for every timer that has
    fired, the handles of fired timers included; and runs with any number of
    ticks exist, so the list grows without bound while playing. *)
Theorem C10_timerIDs_grow_per_tick (w : World) :
  reachable w -> isPlaying w = false ->
  let w0 := exec startMusic w in
  timerIDs w0 = [next_timer w] /\
  (forall ls w1, forallb no_stop ls = true -> run ls w0 = Some w1 ->
                 List.length (timerIDs w1) = S (fires ls) /\
                 forall id, In (LFire id) ls -> In id (timerIDs w1)) /\
  (forall n, exists ls w1, forallb no_stop ls = true /\ run ls w0 = Some w1 /\
                           List.length (timerIDs w1) = S n).
Proof.
  intros R I w0. destruct (reachable_inv R) as [_ T].
  destruct (startMusic_effect w I) as (_ & [t1 t2 t3 t4 t5 t6] & P).
  fold w0 in t1, t2, t3, t4, t5, t6, P.
  assert (T0 : TimerInv w0) by (apply startMusic_TimerInv; assumption).
  assert (E0 : timerIDs w0 = [next_timer w]).
  { rewrite t2. destruct T as [_ _ i]. rewrite (i I). reflexivity. }
  assert (Main : forall ls w1, forallb no_stop ls = true -> run ls w0 = Some w1 ->
                 List.length (timerIDs w1) = S (fires ls) /\
                 forall id, In (LFire id) ls -> In id (timerIDs w1)).
  { intros ls w1 N Hrun.
    destruct (@playing_run ls w0 w1 T0 P N Hrun) as (_ & (new & E & L) & F).
    split; [|assumption]. rewrite E, E0, length_app, L. reflexivity. }
  split; [exact E0|]. split; [exact Main|].
  intros n.
  assert (N0 : pending w0 <> []).
  { rewrite t1. intros Habs. apply app_eq_nil in Habs. destruct Habs; discriminate. }
  destruct (@many_ticks n w0 P N0) as (ls & w1 & N & F & Hrun).
  exists ls, w1. split; [assumption|]. split; [assumption|].
  destruct (Main ls w1 N Hrun) as [L _]. rewrite L, F. reflexivity.
Qed.

Lemma C10_witness :
  reachable (new_SoundEngine env0) /\ isPlaying (new_SoundEngine env0) = false /\
  exists w1,
    run [LElapse 150 0; LFire 1; LCall call_toggleMute; LElapse 200 0; LFire 2]
        (exec startMusic (new_SoundEngine env0)) = Some w1 /\
    List.length (timerIDs w1) = 3%nat /\ In 1%nat (timerIDs w1).
Proof.
  split; [apply reach_new|]. split; [reflexivity|].
  destruct (@C10_timerIDs_grow_per_tick (new_SoundEngine env0) (reach_new env0) eq_refl)
    as (_ & H & _).
  eexists. split; [vm_compute; reflexivity|].
  match goal with
  | |- List.length (timerIDs ?w1) = _ /\ _ =>
      destruct (H [LElapse 150 0; LFire 1%nat; LCall call_toggleMute; LElapse 200 0;
                   LFire 2%nat] w1 eq_refl) as [L F]
  end.
  - vm_compute; reflexivity.
  - split; [exact L | apply F; right; left; reflexivity].
Defined.

Lemma param_events_app (id : nat) (w w1 : World) :
  (id < List.length (nodes w))%nat -> appends w w1 ->
  param_events id w1 = param_events id w.
Proof.
  intros H [ns E]. unfold param_events. rewrite E, nth_error_app1 by assumption.
  reflexivity.
Qed.

(** The automation calls an unmuting [toggleMute] leaves on the music bus. *)
Lemma unmute_music_events (w : World) :
  reachable w -> muted w = true ->
  param_events (musicGain w) (snd (toggleMute w)) =
    param_events (musicGain w) w ++
    (if isPlaying w then []
     else [SetValueAtTime 0 (currentTime w);
           LinearRampToValueAtTime 0.25 (currentTime w + 2)]) ++
    [SetTargetAtTime 0.25 (currentTime w) 1.0].
Proof.
  intros R Hm. destruct (reachable_inv R) as [[gm gu gn _ _ _] T].
  rewrite (toggleMute_unmute w Hm). cbn zeta.
  set (wa := retarget (masterGain w) (SetTargetAtTime 0.4 (currentTime w) 0.1)
               (set_muted false w)).
  assert (Ea : param_events (musicGain w) wa = param_events (musicGain w) w).
  { unfold wa. rewrite param_events_retarget_other by lia. reflexivity. }
  assert (La : List.length (nodes wa) = List.length (nodes w)).
  { unfold wa. cbn. apply upd_length. }
  destruct (isPlaying w) eqn:Hp; cbn [snd].
  - change (musicGain wa) with (musicGain w). change (currentTime wa) with (currentTime w).
    rewrite param_events_retarget by (rewrite La; lia).
    rewrite Ea. reflexivity.
  - assert (Ia : isPlaying wa = false) by exact Hp.
    destruct (startMusic_effect wa Ia) as ([sm su sl _] & [t1 t2 t3 t4 t5 t6] & P).
    set (wb := exec startMusic wa) in *.
    rewrite su, t5.
    change (musicGain wa) with (musicGain w). change (currentTime wa) with (currentTime w).
    rewrite param_events_retarget by lia.
    unfold wb. rewrite (startMusic_idle wa Ia).
    set (wc := retarget (musicGain wa) _ (retarget (musicGain wa) _ (set_isPlaying true wa))).
    assert (Pc : isPlaying wc = true) by reflexivity.
    destruct (loop_effect wc Pc) as (_ & _ & _ & A).
    rewrite (@param_events_app (musicGain w) wc (exec loop wc)); [| |exact A].
    2:{ unfold wc. cbn. rewrite !upd_length. lia. }
    unfold wc. change (musicGain wa) with (musicGain w).
    change (currentTime wa) with (currentTime w).
    rewrite param_events_retarget by (cbn; rewrite !upd_length; lia).
    rewrite param_events_retarget by (cbn; rewrite !upd_length; lia).
    change (param_events (musicGain w) (set_isPlaying true wa))
      with (param_events (musicGain w) wa).
    rewrite Ea, <- !app_assoc. reflexivity.
Qed.

(** C7: [toggleMute] flips [muted] and returns the new value.  When it
    mutes, it schedules on the master bus a ramp toward 0 with time constant
    0.1 and starts nothing.  When it unmutes, the last call it schedules on
    the music bus is the ramp toward 0.25 with time constant 1.0, and it
    starts the loop (first tick, first timer) exactly when the engine was not
    playing; a playing engine keeps its timers and gets no new node. *)
Theorem C7_toggleMute (w : World) :
  reachable w ->
  let r := fst (toggleMute w) in
  let w1 := snd (toggleMute w) in
  r = negb (muted w) /\ muted w1 = negb (muted w) /\
  (muted w = false ->
     param_events (masterGain w) w1 =
       param_events (masterGain w) w ++ [SetTargetAtTime 0 (currentTime w) 0.1] /\
     pending w1 = pending w /\ timerIDs w1 = timerIDs w /\
     isPlaying w1 = isPlaying w) /\
  (muted w = true ->
     param_events (musicGain w) w1 =
       param_events (musicGain w) w ++
       (if isPlaying w then []
        else [SetValueAtTime 0 (currentTime w);
              LinearRampToValueAtTime 0.25 (currentTime w + 2)]) ++
       [SetTargetAtTime 0.25 (currentTime w) 1.0] /\
     isPlaying w1 = true /\
     (isPlaying w = true ->
        pending w1 = pending w /\ timerIDs w1 = timerIDs w /\
        List.length (nodes w1) = List.length (nodes w)) /\
     (isPlaying w = false ->
        pending w1 = pending w ++ [(next_timer w, (Date_now w + 150)%Z)] /\
        timerIDs w1 = timerIDs w ++ [next_timer w])).
Proof.
  intros R r w1. subst r w1.
  pose proof (unmute_music_events R) as Ev.
  destruct (reachable_inv R) as [[gm gu gn _ _ _] T].
  destruct (muted w) eqn:Hm.
  - (* unmuting *)
    specialize (Ev eq_refl). revert Ev.
    rewrite (toggleMute_unmute w Hm). cbn zeta.
    set (wa := retarget (masterGain w) (SetTargetAtTime 0.4 (currentTime w) 0.1)
                 (set_muted false w)).
    destruct (isPlaying w) eqn:Hp; cbn [fst snd]; intros Ev.
    + (* already playing: nothing is started *)
      split; [reflexivity|]. split; [reflexivity|].
      split; [discriminate|]. intros _.
      split; [exact Ev|]. split; [exact Hp|]. split; [intros _ | discriminate].
      repeat split. cbn. rewrite !upd_length. reflexivity.
    + (* idle: the loop is started *)
      assert (Ia : isPlaying wa = false) by exact Hp.
      destruct (startMusic_effect wa Ia) as (_ & [t1 t2 t3 t4 t5 t6] & P).
      set (wb := exec startMusic wa) in *.
      rewrite t6.
      split; [reflexivity|]. split; [cbn; rewrite t6; reflexivity|].
      split; [discriminate|]. intros _.
      split; [exact Ev|]. split; [exact P|]. split; [discriminate | intros _].
      split; [exact t1 | exact t2].
  - (* muting *)
    rewrite (toggleMute_mute w Hm). cbn [fst snd].
    split; [reflexivity|]. split; [reflexivity|].
    split; [intros _ | discriminate].
    split; [|repeat split].
    rewrite param_events_retarget_other by lia.
    rewrite param_events_retarget by (cbn; lia). reflexivity.
Qed.

Lemma reachable_muted : reachable w_muted.
Proof.
  apply (@reach_step (LCall call_toggleMute) (new_SoundEngine env0)).
  - apply reach_new.
  - vm_compute. reflexivity.
Qed.

Lemma C7_witness :
  reachable w_muted /\
  fst (toggleMute w_muted) = negb (muted w_muted) /\
  muted (snd (toggleMute w_muted)) = negb (muted w_muted).
Proof.
  split; [exact reachable_muted|].
  destruct (C7_toggleMute reachable_muted) as (A & B & _).
  split; [exact A | exact B].
Defined.

(** C2, counterexample: in a started engine the music bus has no edge to the
    master bus, and the pluck of the first tick reaches the destination
    through the music bus alone. *)
Lemma C2_counterexample :
  edges (new_SoundEngine env0) = [(1, 0); (2, 0)]%nat /\
  ~ In (musicGain w_running, masterGain w_running) (edges w_running) /\
  audible_without_master w_running = true /\
  ~ music_under_master w_running.
Proof.
  assert (A : audible_without_master w_running = true) by (vm_compute; reflexivity).
  assert (E : ~ In (musicGain w_running, masterGain w_running) (edges w_running)).
  { intros H. cbn in H. repeat (destruct H as [H|H]; [discriminate|]). exact H. }
  split; [vm_compute; reflexivity|]. split; [exact E|]. split; [exact A|].
  intros [H _]. exact (E H).
Qed.

Lemma flows_here (k : nat) (es : list (nat * nat)) (avoid d : nat) :
  d <> avoid -> flows k es avoid d d = true.
Proof.
  intros H. apply Nat.eqb_neq in H.
  destruct k; cbn [flows]; rewrite H, Nat.eqb_refl; reflexivity.
Qed.

Lemma flows_step (k : nat) (es : list (nat * nat)) (avoid a b d : nat) :
  In (a, b) es -> a <> avoid -> flows k es avoid b d = true ->
  flows (S k) es avoid a d = true.
Proof.
  intros Hin Ha Hb. apply Nat.eqb_neq in Ha. cbn [flows]. rewrite Ha.
  destruct (Nat.eqb a d); [reflexivity|].
  apply existsb_exists. exists (a, b). split; [assumption|].
  cbn [fst snd]. rewrite Nat.eqb_refl. assumption.
Qed.

(** C2, amended: in every state of the engine the two buses are connected
    in parallel, each straight to the destination, and the music bus feeds
    nothing else, in particular not the master bus.  A pluck or a bass pulse
    reaches the destination through the music bus on a path that avoids the
    master bus, so the master gain does not act on the sequencer's notes;
    [toggleMute] silences them by a ramp toward 0 on the music bus itself. *)
Theorem C2_music_parallel_to_master (w : World) :
  reachable w ->
  In (masterGain w, destination) (edges w) /\
  In (musicGain w, destination) (edges w) /\
  (forall b, In (musicGain w, b) (edges w) -> b = destination) /\
  ~ In (musicGain w, masterGain w) (edges w) /\
  (forall freq time volume, muted w = false ->
     flows 3 (edges (exec (playPluck freq time volume) w)) (masterGain w)
           (List.length (nodes w)) destination = true) /\
  (forall freq time, muted w = false ->
     flows 4 (edges (exec (playBass freq time) w)) (masterGain w)
           (List.length (nodes w)) destination = true) /\
  (muted w = false ->
     param_events (musicGain w) (exec toggleMute w) =
     param_events (musicGain w) w ++ [SetTargetAtTime 0 (currentTime w) 0.5]).
Proof.
  intros R. destruct (reachable_inv R) as [[gm gu gn o1 o2 gb] _].
  rewrite gm, gu. unfold destination.
  split; [exact o1|]. split; [exact o2|].
  split; [intros b Hb; apply (gb 2%nat b Hb); lia|].
  split; [intros H; apply gb in H; [discriminate | lia]|].
  split; [|split].
  - intros freq time volume Hm. rewrite (playPluck_eq freq time volume w Hm).
    cbn zeta. unfold add_graph. cbn [edges set_edges set_nodes]. rewrite gu.
    set (n := List.length (nodes w)) in *.
    set (es := edges w ++ _).
    apply (@flows_step 2 es 1 n (n + 1)); [subst es; apply in_or_app; right; left; reflexivity | lia |].
    apply (@flows_step 1 es 1 (n + 1) 2); [subst es; apply in_or_app; right; right; left; reflexivity | lia |].
    apply (@flows_step 0 es 1 2 0); [subst es; apply in_or_app; left; exact o2 | lia |].
    apply flows_here. lia.
  - intros freq time Hm. rewrite (playBass_eq freq time w Hm).
    cbn zeta. unfold add_graph. cbn [edges set_edges set_nodes]. rewrite gu.
    set (n := List.length (nodes w)) in *.
    set (es := edges w ++ _).
    apply (@flows_step 3 es 1 n (n + 2)); [subst es; apply in_or_app; right; left; reflexivity | lia |].
    apply (@flows_step 2 es 1 (n + 2) (n + 1)); [subst es; apply in_or_app; right; right; left; reflexivity | lia |].
    apply (@flows_step 1 es 1 (n + 1) 2); [subst es; apply in_or_app; right; right; right; left; reflexivity | lia |].
    apply (@flows_step 0 es 1 2 0); [subst es; apply in_or_app; left; exact o2 | lia |].
    apply flows_here. lia.
  - intros Hm. unfold exec. rewrite (toggleMute_mute w Hm). cbn [snd]. rewrite gm, gu.
    rewrite param_events_retarget
      by (unfold retarget; cbn [nodes set_nodes set_muted]; rewrite upd_length; lia).
    rewrite param_events_retarget_other by lia. reflexivity.
Qed.

Lemma C2_witness :
  reachable w_running /\
  In (musicGain w_running, destination) (edges w_running) /\
  ~ In (musicGain w_running, masterGain w_running) (edges w_running).
Proof.
  split; [exact reachable_running|].
  destruct (C2_music_parallel_to_master reachable_running) as (_ & A & _ & B & _).
  split; [exact A | exact B].
Defined.

(* ================================================================== *)
(** ** The exponential ramp of [setTargetAtTime] *)
(* ================================================================== *)

Section ExponentialApproach.

Local Open Scope R_scope.

Variables target t0 tau v0 : R.
Hypothesis tau_pos : 0 < tau.
Hypothesis below : v0 <= target.

Let g (t : R) : R := target + (v0 - target) * exp (- ((t - t0) / tau)).

Lemma approach_start : g t0 = v0.
Proof.
  unfold g. replace (- ((t0 - t0) / tau)) with 0 by (field; lra).
  rewrite exp_0. ring.
Qed.

Lemma approach_bounded (t : R) : g t <= target.
Proof.
  unfold g. pose proof (exp_pos (- ((t - t0) / tau))). nra.
Qed.

Lemma exp_le (x y : R) : x <= y -> exp x <= exp y.
Proof.
  intros [H| ->]; [left; apply exp_increasing; assumption | right; reflexivity].
Qed.

Lemma approach_monotone (t1 t2 : R) : t1 <= t2 -> g t1 <= g t2.
Proof.
  intros H. unfold g.
  assert (E : exp (- ((t2 - t0) / tau)) <= exp (- ((t1 - t0) / tau))).
  { apply exp_le. apply Ropp_le_contravar.
    unfold Rdiv. apply Rmult_le_compat_r; [left; apply Rinv_0_lt_compat; assumption | lra]. }
  nra.
Qed.

Lemma approach_limit (eps : R) :
  0 < eps -> exists T, forall t, T <= t -> Rabs (g t - target) < eps.
Proof.
  intros He. exists (t0 + tau * ((target - v0) / eps)). intros t Ht.
  pose proof (approach_bounded t) as B.
  rewrite Rabs_left1 by lra.
  unfold g.
  set (x := (t - t0) / tau).
  assert (Hx : (target - v0) / eps <= x).
  { unfold x. apply Rmult_le_reg_r with tau; [assumption|].
    unfold Rdiv at 2. rewrite Rmult_assoc, Rinv_l by lra. lra. }
  assert (Hd : 0 <= (target - v0) / eps).
  { unfold Rdiv. apply Rmult_le_pos; [lra | left; apply Rinv_0_lt_compat; assumption]. }
  pose proof (exp_ineq1_le x) as E1.
  pose proof (exp_pos x) as E2.
  rewrite exp_Ropp.
  assert (K : (target - v0) * / exp x < eps).
  { apply Rmult_lt_reg_r with (exp x); [assumption|].
    rewrite Rmult_assoc, Rinv_l by lra. rewrite Rmult_1_r.
    assert (target - v0 <= eps * x).
    { apply Rmult_le_compat_l with (r := eps) in Hx; [|lra].
      unfold Rdiv in Hx. rewrite (Rmult_comm (target - v0)) in Hx.
      rewrite <- Rmult_assoc, Rinv_r, Rmult_1_l in Hx by lra. exact Hx. }
    nra. }
  lra.
Qed.

End ExponentialApproach.

Lemma Q2R_quarter : Q2R 0.25 = (1 / 4)%R.
Proof. unfold Q2R. cbn. lra. Qed.

Lemma Q2R_one : Q2R 1.0 = 1%R.
Proof. unfold Q2R. cbn. lra. Qed.

(** C9: the ramp toward 0.25 is the one an unmuting [toggleMute] schedules
    last on the music bus, [setTargetAtTime(0.25, currentTime, 1.0)].  From
    any starting gain [v0] not above 0.25 the gain it defines starts at [v0],
    never decreases, never exceeds 0.25 and comes as close to 0.25 as wanted
    after enough time. *)
Theorem C9_ramp_to_quarter_never_overshoots (w : World) (v0 : R) :
  reachable w -> muted w = true -> (v0 <= Q2R 0.25)%R ->
  (exists evs, param_events (musicGain w) (snd (toggleMute w)) =
               evs ++ [SetTargetAtTime 0.25 (currentTime w) 1.0]) /\
  let gain := setTarget_value 0.25 (currentTime w) 1.0 v0 in
  gain (Q2R (currentTime w)) = v0 /\
  (forall t1 t2, (t1 <= t2)%R -> (gain t1 <= gain t2)%R) /\
  (forall t, (gain t <= Q2R 0.25)%R) /\
  (forall eps, (0 < eps)%R ->
               exists T, forall t, (T <= t)%R -> (Rabs (gain t - Q2R 0.25) < eps)%R).
Proof.
  intros R Hm Hv. split.
  - rewrite (unmute_music_events R Hm). rewrite app_assoc. eexists. reflexivity.
  - assert (Ht : (0 < Q2R 1.0)%R) by (rewrite Q2R_one; lra).
    cbn zeta. unfold setTarget_value. split; [|split; [|split]].
    + apply approach_start. exact Ht.
    + intros t1 t2. apply approach_monotone; assumption.
    + intros t. apply approach_bounded; assumption.
    + intros eps. apply approach_limit; assumption.
Qed.

Lemma C9_witness :
  reachable w_muted /\ muted w_muted = true /\ (0 <= Q2R 0.25)%R /\
  forall t, (setTarget_value 0.25 (currentTime w_muted) 1.0 0 t <= Q2R 0.25)%R.
Proof.
  assert (H : (0 <= Q2R 0.25)%R) by (rewrite Q2R_quarter; lra).
  split; [exact reachable_muted|]. split; [reflexivity|]. split; [exact H|].
  destruct (@C9_ramp_to_quarter_never_overshoots w_muted 0%R reachable_muted eq_refl H)
    as (_ & _ & _ & B & _).
  exact B.
Defined.


(* ================================================================== *)
(** ** The one-shot effects *)
(* ================================================================== *)

(** *** Closed forms *)

Ltac closed_form :=
  eval_monad; cbn [flat_map seq app Nat.mul Nat.add combine map fst snd List.length];
  rewrite ?Nat.add_0_r; reflexivity.

Lemma playSnap_eq (w : World) :
  muted w = false ->
  exec playSnap w =
  set_rpos (sampleRate w * 2 + rpos w)
    (add_graph (snap_nodes (currentTime w)
                  (noise_list (sampleRate w * 2) (random w) (rpos w)))
               (snap_edges (List.length (nodes w)) (masterGain w)) w).
Proof.
  destruct w as [dn rd rp nt pe ct sr ns es ma mu mt ip ti]. cbn. intros ->.
  unfold playSnap, add_graph, snap_nodes, snap_edges, exec.
  repeat (rewrite ?bind_assoc; rewrite bind_eq; rewrite ?createNoiseBuffer_eq;
          prims; norm_nodes).
  reflexivity.
Qed.

Lemma playScrambleNoise_eq (w : World) :
  muted w = false ->
  exec playScrambleNoise w =
  set_rpos (8 + rpos w)
    (add_graph
       (flat_map (fun i => blip_nodes (currentTime w) (draw (random w (i + rpos w))) i)
                 (seq 0 8))
       (flat_map (pair_edges (List.length (nodes w)) (masterGain w)) (seq 0 8)) w).
Proof.
  destruct w as [dn rd rp nt pe ct sr ns es ma mu mt ip ti]. cbn. intros ->.
  unfold playScrambleNoise, add_graph, blip_nodes, pair_edges. closed_form.
Qed.

Lemma playServo_eq (w : World) :
  muted w = false ->
  exec playServo w =
  add_graph (servo_nodes (currentTime w))
            (servo_edges (List.length (nodes w)) (masterGain w)) w.
Proof.
  destruct w as [dn rd rp nt pe ct sr ns es ma mu mt ip ti]. cbn. intros ->.
  unfold playServo, add_graph, servo_nodes, servo_edges. closed_form.
Qed.

Lemma playHover_eq (w : World) :
  muted w = false ->
  exec playHover w =
  add_graph (hover_nodes (currentTime w))
            (pair_edges (List.length (nodes w)) (masterGain w) 0) w.
Proof.
  destruct w as [dn rd rp nt pe ct sr ns es ma mu mt ip ti]. cbn. intros ->.
  unfold playHover, add_graph, hover_nodes, pair_edges. closed_form.
Qed.

Lemma playSuccess_eq (w : World) :
  muted w = false ->
  exec playSuccess w =
  add_graph
    (flat_map (fun fi => chord_nodes (currentTime w) (fst fi) (snd fi))
              (combine chord (seq 0 4)))
    (flat_map (pair_edges (List.length (nodes w)) (masterGain w)) (seq 0 4)) w.
Proof.
  destruct w as [dn rd rp nt pe ct sr ns es ma mu mt ip ti]. cbn. intros ->.
  unfold playSuccess, add_graph, chord_nodes, pair_edges, chord. closed_form.
Qed.
(** *** Recipes *)

Lemma Qlt_add_pos (t d : Q) : 0 < d -> t < t + d.
Proof.
  intros H. rewrite <- (Qplus_0_r t) at 1. apply Qplus_lt_r. exact H.
Qed.



(** X1: on an unmuted engine [playBass freq time] adds exactly three nodes:
    a triangle oscillator at [freq], started at [time] and stopped at
    [time + 0.5]; a gain whose envelope is set to 0 at [time], rises linearly
    to 0.15 at [time + 0.05] and falls linearly to 0 at [time + 0.4]; and a
    low-pass filter at 400 Hz.  The oscillator feeds the filter, the filter
    the gain and the gain the music bus; no random number is drawn and the
    control state is untouched. *)
Theorem X1_bass_recipe (freq time : Q) (w : World) :
  muted w = false ->
  let w1 := exec (playBass freq time) w in
  let n := List.length (nodes w) in
  nodes w1 = nodes w ++
    [ mkNode OscillatorNode "triangle" (mkParam freq []) None
        (Some time) (Some (time + 0.5));
      mkNode GainNode EmptyString
        (mkParam 1 [SetValueAtTime 0 time;
                    LinearRampToValueAtTime 0.15 (time + 0.05);
                    LinearRampToValueAtTime 0 (time + 0.4)])
        None None None;
      mkNode BiquadFilterNode "lowpass" (mkParam 400 []) None None None ] /\
  edges w1 = edges w ++ [(n, n + 2)%nat; (n + 2, n + 1)%nat; (n + 1, musicGain w)%nat] /\
  rpos w1 = rpos w /\ same_control w w1.
Proof.
  intros H w1 n. subst w1. rewrite (playBass_eq freq time w H).
  repeat split.
Qed.

Lemma X1_witness :
  muted (new_SoundEngine env0) = false /\
  edges (exec (playBass 130.81 1 ) (new_SoundEngine env0)) =
  edges (new_SoundEngine env0) ++ [(3, 5)%nat; (5, 4)%nat; (4, 2)%nat].
Proof.
  split; [vm_compute; reflexivity|].
  apply (X1_bass_recipe 130.81 1 (new_SoundEngine env0)). vm_compute. reflexivity.
Defined.

Lemma count_osc_created (ty : string) (w w1 : World) (ns : list AudioNode) :
  nodes w1 = nodes w ++ ns -> count_osc ty (created w w1) = count_osc ty ns.
Proof. intros E. rewrite (@created_app w w1 ns E). reflexivity. Qed.

Lemma notes_app (w w1 : World) (ns : list AudioNode) :
  nodes w1 = nodes w ++ ns ->
  notes w1 = (notes w + List.length (filter is_source ns))%nat.
Proof. intros E. unfold notes. rewrite E, filter_app, length_app. reflexivity. Qed.

(** X3: on an unmuted engine [playSnap] adds five nodes in two layers.  The
    noise layer is a buffer source holding the two seconds of white noise
    drawn by [createNoiseBuffer], started at the current audio time and never
    stopped, a low-pass filter set to 800 Hz, and a gain set to 0.5 that
    decays exponentially to 0.01 within 0.15 s.  The click layer is a
    triangle oscillator sweeping exponentially from 150 Hz to 40 Hz within
    0.1 s, started now and stopped 0.2 s later, and a gain set to 0.8 at
    0.05 s that decays to 0.01 at 0.15 s.  Both layers end in the master
    bus; two source nodes are added; the call consumes [2 * sampleRate]
    random draws and leaves the control state untouched. *)
Theorem X3_snap_recipe (w : World) :
  muted w = false ->
  let w1 := exec playSnap w in
  let t := currentTime w in
  let n := List.length (nodes w) in
  nodes w1 = nodes w ++
    [ mkNode BufferSourceNode EmptyString (mkParam 0 [])
        (Some (noise_list (sampleRate w * 2) (random w) (rpos w))) (Some t) None;
      mkNode BiquadFilterNode "lowpass" (mkParam 350 [SetValueAtTime 800 t]) None None None;
      mkNode GainNode EmptyString
        (mkParam 1 [SetValueAtTime 0.5 t; ExponentialRampToValueAtTime 0.01 (t + 0.15)])
        None None None;
      mkNode OscillatorNode "triangle"
        (mkParam 440 [SetValueAtTime 150 t; ExponentialRampToValueAtTime 40 (t + 0.1)])
        None (Some t) (Some (t + 0.2));
      mkNode GainNode EmptyString
        (mkParam 1 [SetValueAtTime 0.8 (t + 0.05);
                    ExponentialRampToValueAtTime 0.01 (t + 0.15)])
        None None None ] /\
  edges w1 = edges w ++
    [(n, n + 1); (n + 1, n + 2); (n + 2, masterGain w);
     (n + 3, n + 4); (n + 4, masterGain w)]%nat /\
  notes w1 = (notes w + 2)%nat /\
  rpos w1 = (sampleRate w * 2 + rpos w)%nat /\ same_control w w1.
Proof.
  intros H w1 t n. subst w1. rewrite (playSnap_eq w H).
  split; [reflexivity|]. split; [reflexivity|]. split; [|split; [reflexivity|split; reflexivity]].
  apply (@notes_app w _ (snap_nodes (currentTime w)
                           (noise_list (sampleRate w * 2) (random w) (rpos w)))).
  reflexivity.
Qed.

Lemma X3_witness :
  muted (new_SoundEngine env0) = false /\
  notes (exec playSnap (new_SoundEngine env0)) = 2%nat /\
  rpos (exec playSnap (new_SoundEngine env0)) = 4%nat.
Proof.
  split; [vm_compute; reflexivity|].
  destruct (@X3_snap_recipe (new_SoundEngine env0)) as (_ & _ & N & R & _).
  - vm_compute; reflexivity.
  - split; [exact N | exact R].
Defined.




(** X5: on an unmuted engine [playServo] adds three nodes: a sawtooth
    oscillator sweeping exponentially from 100 Hz to 800 Hz within 0.6 s,
    started now and stopped 0.6 s later; a gain that rises linearly from 0 to
    0.2 within 0.1 s and falls linearly to 0 at 0.6 s; and a low-pass filter
    whose cutoff rises linearly from 400 Hz to 2000 Hz within 0.6 s.  The
    oscillator feeds the filter, the filter the gain, the gain the master
    bus; nothing else changes. *)
Theorem X5_servo_recipe (w : World) :
  muted w = false ->
  let w1 := exec playServo w in
  let t := currentTime w in
  let n := List.length (nodes w) in
  nodes w1 = nodes w ++
    [ mkNode OscillatorNode "sawtooth"
        (mkParam 440 [SetValueAtTime 100 t; ExponentialRampToValueAtTime 800 (t + 0.6)])
        None (Some t) (Some (t + 0.6));
      mkNode GainNode EmptyString
        (mkParam 1 [SetValueAtTime 0 t; LinearRampToValueAtTime 0.2 (t + 0.1);
                    LinearRampToValueAtTime 0 (t + 0.6)])
        None None None;
      mkNode BiquadFilterNode "lowpass"
        (mkParam 350 [SetValueAtTime 400 t; LinearRampToValueAtTime 2000 (t + 0.6)])
        None None None ] /\
  edges w1 = edges w ++ [(n, n + 2); (n + 2, n + 1); (n + 1, masterGain w)]%nat /\
  rpos w1 = rpos w /\ same_control w w1.
Proof.
  intros H w1 t n. subst w1. rewrite (playServo_eq w H). repeat split.
Qed.

Lemma X5_witness :
  muted (new_SoundEngine env0) = false /\
  edges (exec playServo (new_SoundEngine env0)) =
  edges (new_SoundEngine env0) ++ [(3, 5); (5, 4); (4, 1)]%nat.
Proof.
  split; [vm_compute; reflexivity|].
  apply (@X5_servo_recipe (new_SoundEngine env0)). vm_compute. reflexivity.
Defined.

(** X6: on an unmuted engine [playHover] adds two nodes: a sine oscillator
    set to 1200 Hz, started now and stopped 0.05 s later, and a gain set to
    0.05 that decays exponentially to 0.001 within 0.05 s; the oscillator
    feeds the gain and the gain the master bus; nothing else changes. *)
Theorem X6_hover_recipe (w : World) :
  muted w = false ->
  let w1 := exec playHover w in
  let t := currentTime w in
  let n := List.length (nodes w) in
  nodes w1 = nodes w ++
    [ mkNode OscillatorNode "sine" (mkParam 440 [SetValueAtTime 1200 t])
        None (Some t) (Some (t + 0.05));
      mkNode GainNode EmptyString
        (mkParam 1 [SetValueAtTime 0.05 t; ExponentialRampToValueAtTime 0.001 (t + 0.05)])
        None None None ] /\
  edges w1 = edges w ++ [(n, n + 1); (n + 1, masterGain w)]%nat /\
  rpos w1 = rpos w /\ same_control w w1.
Proof.
  intros H w1 t n. subst w1. rewrite (playHover_eq w H).
  unfold pair_edges. cbn [Nat.mul Nat.add]. rewrite Nat.add_0_r. repeat split.
Qed.

Lemma X6_witness :
  muted (new_SoundEngine env0) = false /\
  edges (exec playHover (new_SoundEngine env0)) =
  edges (new_SoundEngine env0) ++ [(3, 4); (4, 1)]%nat.
Proof.
  split; [vm_compute; reflexivity|].
  apply (@X6_hover_recipe (new_SoundEngine env0)). vm_compute. reflexivity.
Defined.

(** X7: on an unmuted engine [playSuccess] adds four voices, eight nodes in
    all, at 440, 554, 659 and 830 Hz.  Voice [i] is a triangle oscillator
    started now and stopped 2 s later, feeding a gain that starts at 0,
    reaches 0.15 linearly at [t + 0.1 + i * 0.05] and decays exponentially to
    0.001 at [t + 2.0], and feeds the master bus.  The oscillators all start
    together: only the attack of the envelope is staggered.  No random
    number is drawn and the control state is untouched. *)
Theorem X7_success_recipe (w : World) :
  muted w = false ->
  let w1 := exec playSuccess w in
  let t := currentTime w in
  let n := List.length (nodes w) in
  nodes w1 = nodes w ++
    flat_map (fun fi : Q * nat =>
      [ mkNode OscillatorNode "triangle" (mkParam (fst fi) []) None
          (Some t) (Some (t + 2.0));
        mkNode GainNode EmptyString
          (mkParam 1 [SetValueAtTime 0 t;
                      LinearRampToValueAtTime 0.15 (t + 0.1 + num (snd fi) * 0.05);
                      ExponentialRampToValueAtTime 0.001 (t + 2.0)])
          None None None ])
      [(440, 0%nat); (554, 1%nat); (659, 2%nat); (830, 3%nat)] /\
  edges w1 = edges w ++
    flat_map (fun i => [(n + 2 * i, n + (2 * i + 1)); (n + (2 * i + 1), masterGain w)]%nat)
             (seq 0 4) /\
  count_osc "triangle" (created w w1) = 4%nat /\
  rpos w1 = rpos w /\ same_control w w1.
Proof.
  intros H w1 t n. subst w1. rewrite (playSuccess_eq w H).
  split; [reflexivity|]. split; [reflexivity|].
  split; [|split; [reflexivity | split; reflexivity]].
  erewrite count_osc_created; [|reflexivity]. reflexivity.
Qed.

Lemma X7_witness :
  muted (new_SoundEngine env0) = false /\
  count_osc "triangle" (created (new_SoundEngine env0)
                          (exec playSuccess (new_SoundEngine env0))) = 4%nat.
Proof.
  split; [vm_compute; reflexivity|].
  destruct (@X7_success_recipe (new_SoundEngine env0)) as (_ & _ & S & _).
  - vm_compute; reflexivity.
  - exact S.
Defined.

(* ================================================================== *)
(** ** The sequencer over whole runs *)
(* ================================================================== *)

Lemma OneTick_same_control (w w1 : World) :
  same_control w w1 -> OneTick w -> OneTick w1.
Proof.
  intros [s1 s2 s3 s4 s5 s6 s7]. unfold OneTick. rewrite s1, s4, s6. auto.
Qed.

Lemma OneTick_ticked (w w1 : World) :
  pending w = [] -> ticked w w1 -> isPlaying w1 = true -> OneTick w1.
Proof.
  intros P [t1 t2 t3 t4 t5 t6] Pl. unfold OneTick. rewrite Pl, t1, P, t4.
  exists (next_timer w), (Date_now w + tempo)%Z. split; [reflexivity | lia].
Qed.

Lemma OneTick_startMusic (w : World) : OneTick w -> OneTick (exec startMusic w).
Proof.
  intros O. destruct (isPlaying w) eqn:H.
  - unfold exec. rewrite (startMusic_running w H). assumption.
  - destruct (startMusic_effect w H) as (_ & K & P).
    unfold OneTick in O. rewrite H in O. eapply OneTick_ticked; eassumption.
Qed.

Lemma OneTick_toggleMute (w : World) : OneTick w -> OneTick (exec toggleMute w).
Proof.
  intros O. unfold exec. destruct (muted w) eqn:Hm.
  - rewrite (toggleMute_unmute w Hm). cbn [snd].
    set (w1 := retarget (masterGain w) _ (set_muted false w)).
    assert (O1 : OneTick w1) by exact O.
    assert (O2 : OneTick (if isPlaying w then w1 else exec startMusic w1)).
    { destruct (isPlaying w); [assumption | apply OneTick_startMusic; assumption]. }
    exact O2.
  - rewrite (toggleMute_mute w Hm). exact O.
Qed.

Lemma OneTick_call (c : Call) (w : World) :
  TimerInv w -> OneTick w -> OneTick (exec (do_call c) w).
Proof.
  intros T O.
  assert (Q : forall m : M unit, quiet_effect m -> OneTick (exec m w)).
  { intros m Hm. destruct (Hm w) as (_ & S & _). eapply OneTick_same_control; eassumption. }
  destruct c; cbn [do_call].
  - apply OneTick_startMusic; assumption.
  - destruct (stopMusic_effect T) as (_ & P & _ & Pl & _).
    unfold OneTick. rewrite Pl. assumption.
  - rewrite exec_seq. unfold exec at 1. cbn [ret snd]. apply OneTick_toggleMute; assumption.
  - apply Q, playPluck_effect.
  - apply Q, playBass_effect.
  - apply Q, playSnap_effect.
  - apply Q, playScrambleNoise_effect.
  - apply Q, playServo_effect.
  - apply Q, playHover_effect.
  - apply Q, playSuccess_effect.
Qed.

Lemma OneTick_step (l : Label) (w w1 : World) :
  step l w = Some w1 -> TimerInv w -> OneTick w -> OneTick w1.
Proof.
  intros S T O. destruct l as [c|ms dt|id]; cbn [step] in S.
  - injection S as <-. apply OneTick_call; assumption.
  - destruct (0 <=? ms)%Z eqn:Hms; [|discriminate].
    destruct (Qle_bool 0 dt); [|discriminate]. cbn [andb] in S. injection S as <-.
    apply Z.leb_le in Hms. unfold OneTick in *.
    cbn [isPlaying pending Date_now set_currentTime set_Date_now].
    destruct (isPlaying w); [|assumption].
    destruct O as (id & due & P & D). exists id, due. split; [assumption | lia].
  - destruct (due_of id w) as [due|] eqn:D; [|discriminate].
    destruct (_ <=? _)%Z; [|discriminate]. injection S as <-.
    apply due_of_In in D. unfold OneTick in O.
    destruct (isPlaying w) eqn:Pl; [|rewrite O in D; destruct D].
    destruct O as (id0 & due0 & P & _). rewrite P in D.
    destruct D as [D|[]]. injection D as -> ->.
    destruct (fire_playing id w Pl) as (_ & Pl1 & P1).
    unfold OneTick. rewrite Pl1, P1, P. cbn [filter fst]. rewrite Nat.eqb_refl. cbn [negb app].
    exists (next_timer w), (Date_now w + tempo)%Z. split; [reflexivity|].
    replace (Date_now (exec (clearTimeout id ;;; loop) w)) with (Date_now w); [lia|].
    rewrite exec_seq.
    destruct (@loop_effect (exec (clearTimeout id) w) Pl) as (_ & [t1 t2 t3 t4 t5 t6] & _).
    rewrite t4. reflexivity.
Qed.

Lemma reachable_OneTick (w : World) : reachable w -> OneTick w.
Proof.
  induction 1 as [e | l w w1 R O S].
  - reflexivity.
  - destruct (reachable_inv R) as [_ T]. eapply OneTick_step; eassumption.
Qed.

(** X8: the sequencer never runs two loops at once and never stalls.  In
    every state of the engine the timer queue holds no [loop] callback while
    the sequencer is idle and exactly one while it plays, and that one is due
    no later than 150 ms from now; this holds whatever the page calls,
    [startMusic] and [toggleMute] repeated in any order included. *)
Theorem X8_one_pending_tick (w : World) :
  reachable w ->
  (isPlaying w = false -> pending w = []) /\
  (isPlaying w = true ->
   exists id due, pending w = [(id, due)] /\ (due <= Date_now w + 150)%Z).
Proof.
  intros R. pose proof (reachable_OneTick R) as O. unfold OneTick in O.
  split; intros H; rewrite H in O; exact O.
Qed.

Lemma X8_witness :
  reachable w_running /\ exists id due, pending w_running = [(id, due)].
Proof.
  split; [exact reachable_running|].
  destruct (X8_one_pending_tick reachable_running) as [_ H].
  destruct H as (id & due & P & _); [vm_compute; reflexivity|].
  exists id, due. exact P.
Defined.

(** *** A muted engine *)

Lemma nothing_added_refl (w : World) : nothing_added w w.
Proof. split; reflexivity. Qed.

Lemma nothing_added_trans (a b c : World) :
  nothing_added a b -> nothing_added b c -> nothing_added a c.
Proof. intros [] []. split; congruence. Qed.

Lemma nothing_added_retarget (id : nat) (e : AutomationEvent) (w : World) :
  nothing_added w (retarget id e w).
Proof.
  split; try reflexivity.
  - unfold retarget. cbn [nodes set_nodes]. apply upd_length.
  - apply notes_retarget.
Qed.

Lemma layerA_muted (now : Q) (w : World) :
  muted w = true -> exists r, exec (layerA now) w = set_rpos r w.
Proof.
  destruct w as [dn rd rp nt pe ct sr ns es ma mu mt ip ti]. cbn [muted]. intros ->.
  unfold layerA, playPluck, exec. rewrite bind_eq. world_fields.
  destruct (negb (Qle_bool _ _)); world_fields; eval_monad; eexists; reflexivity.
Qed.

Lemma layerB_muted (now : Q) (w : World) :
  muted w = true -> exists r, exec (layerB now) w = set_rpos r w.
Proof.
  destruct w as [dn rd rp nt pe ct sr ns es ma mu mt ip ti]. cbn [muted]. intros ->.
  unfold layerB, playBass, exec. rewrite bind_eq. world_fields.
  destruct (bass_gate dn); world_fields; eval_monad; eexists; reflexivity.
Qed.

Lemma loop_muted (w : World) : muted w = true -> nothing_added w (exec loop w).
Proof.
  intros Hm. destruct (isPlaying w) eqn:P.
  - rewrite (loop_playing w P).
    destruct (layerA_muted (currentTime w) w Hm) as [r1 ->].
    destruct (layerB_muted (currentTime w) (set_rpos r1 w) Hm) as [r2 ->].
    rewrite schedule_next_eq. split; reflexivity.
  - unfold exec. rewrite (loop_idle w P). apply nothing_added_refl.
Qed.

Lemma startMusic_muted (w : World) : muted w = true -> nothing_added w (exec startMusic w).
Proof.
  intros Hm. destruct (isPlaying w) eqn:P.
  - unfold exec. rewrite (startMusic_running w P). apply nothing_added_refl.
  - rewrite (startMusic_idle w P).
    eapply nothing_added_trans; [|apply loop_muted; exact Hm].
    eapply nothing_added_trans; [|apply nothing_added_retarget].
    eapply nothing_added_trans; [|apply nothing_added_retarget].
    split; reflexivity.
Qed.

Lemma stopMusic_nothing_added (w : World) : nothing_added w (exec stopMusic w).
Proof.
  rewrite stopMusic_eq.
  eapply nothing_added_trans; [apply (nothing_added_retarget (musicGain w)
                                        (SetTargetAtTime 0 (currentTime w) 0.5) w)|].
  split; reflexivity.
Qed.

Lemma play_muted (c : Call) (w : World) :
  muted w = true ->
  c <> call_startMusic -> c <> call_stopMusic -> c <> call_toggleMute ->
  do_call c w = (tt, w).
Proof.
  intros Hm H1 H2 H3.
  destruct c; try congruence; cbn [do_call];
    cbv beta delta [playPluck playBass playSnap playScrambleNoise playServo playHover
                    playSuccess bind get]; rewrite Hm; reflexivity.
Qed.

Lemma step_muted (l : Label) (w w1 : World) :
  muted w = true -> no_toggle l = true -> step l w = Some w1 -> nothing_added w w1.
Proof.
  intros Hm N S. destruct l as [c|ms dt|id]; cbn [step] in S.
  - injection S as <-. destruct c; try discriminate N.
    + apply startMusic_muted; assumption.
    + apply stopMusic_nothing_added.
    + unfold exec. rewrite play_muted by (assumption || discriminate). apply nothing_added_refl.
    + unfold exec. rewrite play_muted by (assumption || discriminate). apply nothing_added_refl.
    + unfold exec. rewrite play_muted by (assumption || discriminate). apply nothing_added_refl.
    + unfold exec. rewrite play_muted by (assumption || discriminate). apply nothing_added_refl.
    + unfold exec. rewrite play_muted by (assumption || discriminate). apply nothing_added_refl.
    + unfold exec. rewrite play_muted by (assumption || discriminate). apply nothing_added_refl.
    + unfold exec. rewrite play_muted by (assumption || discriminate). apply nothing_added_refl.
  - destruct (_ && _); [|discriminate]. injection S as <-. split; reflexivity.
  - destruct (due_of id w); [|discriminate].
    destruct (_ <=? _)%Z; [|discriminate]. injection S as <-.
    rewrite exec_seq.
    eapply nothing_added_trans; [|apply loop_muted; exact Hm].
    split; reflexivity.
Qed.

(** X9: a muted engine synthesises nothing.  From a state whose mute flag is
    set, whatever happens other than a call of [toggleMute] (sequencer ticks,
    [startMusic], [stopMusic], the two note methods, the five one-shot
    effects, time passing) leaves the engine muted and adds no node, no
    connection and no note to the audio graph. *)
Theorem X9_muted_engine_adds_nothing (ls : list Label) :
  forall w w1, muted w = true -> forallb no_toggle ls = true -> run ls w = Some w1 ->
               muted w1 = true /\
               List.length (nodes w1) = List.length (nodes w) /\
               edges w1 = edges w /\ notes w1 = notes w.
Proof.
  induction ls as [|l r IH]; intros w w1 Hm N R.
  - injection R as <-. auto.
  - cbn [forallb] in N. apply andb_prop in N. destruct N as [N1 N2].
    cbn [run] in R. destruct (step l w) as [w0|] eqn:S; [|discriminate].
    destruct (@step_muted l w w0 Hm N1 S) as [a1 a2 a3 a4].
    assert (Hm0 : muted w0 = true) by congruence.
    destruct (IH w0 w1 Hm0 N2 R) as (b1 & b2 & b3 & b4).
    repeat split; congruence.
Qed.

Lemma X9_witness :
  muted w_muted = true /\
  exists w1,
    run [LCall call_startMusic; LCall call_playSnap; LElapse 150 0; LFire 1;
         LCall call_stopMusic] w_muted = Some w1 /\
    notes w1 = notes w_muted /\ edges w1 = edges w_muted.
Proof.
  split; [vm_compute; reflexivity|].
  eexists. split; [vm_compute; reflexivity|].
  match goal with
  | |- notes ?w1 = _ /\ _ =>
      destruct (@X9_muted_engine_adds_nothing
                  [LCall call_startMusic; LCall call_playSnap; LElapse 150 0; LFire 1%nat;
                   LCall call_stopMusic] w_muted w1) as (_ & _ & E & N)
  end.
  - vm_compute; reflexivity.
  - reflexivity.
  - vm_compute; reflexivity.
  - split; [exact N | exact E].
Defined.

(** *** The bus gains *)













(** *** Stopping an idle sequencer *)

(** X14: [stopMusic] has no guard.  Called on an idle engine it leaves the
    flags, the timers and the graph's shape as they are, but it is not a
    no-op: it issues one more fade-out [setTargetAtTime(0, t, 0.5)] on the
    music bus, so the state after the call differs from the state before. *)
Theorem X14_stop_when_idle (w : World) :
  reachable w -> isPlaying w = false ->
  let w1 := exec stopMusic w in
  w1 = retarget (musicGain w) (SetTargetAtTime 0 (currentTime w) 0.5) w /\
  same_control w w1 /\ edges w1 = edges w /\
  param_events (musicGain w) w1 =
    param_events (musicGain w) w ++ [SetTargetAtTime 0 (currentTime w) 0.5] /\
  w1 <> w.
Proof.
  intros R P w1. destruct (reachable_inv R) as [[gm gu gn _ _ _] [_ _ ti]].
  assert (E : w1 = retarget (musicGain w) (SetTargetAtTime 0 (currentTime w) 0.5) w).
  { subst w1. rewrite stopMusic_eq. rewrite (ti P). cbn [cleared fold_left].
    destruct w as [dn rd rp nt pe ct sr ns es ma mu mt ip ti0].
    cbn in P, ti. subst ip. rewrite (ti eq_refl). reflexivity. }
  assert (V : param_events (musicGain w) w1 =
              param_events (musicGain w) w ++ [SetTargetAtTime 0 (currentTime w) 0.5]).
  { rewrite E. apply param_events_retarget. rewrite gu. lia. }
  split; [exact E|]. split; [rewrite E; split; reflexivity|].
  split; [rewrite E; reflexivity|]. split; [exact V|].
  intros Habs. rewrite Habs in V.
  apply (f_equal (@List.length AutomationEvent)) in V. rewrite length_app in V. cbn in V. lia.
Qed.

Lemma X14_witness :
  reachable (new_SoundEngine env0) /\ isPlaying (new_SoundEngine env0) = false /\
  exec stopMusic (new_SoundEngine env0) <> new_SoundEngine env0.
Proof.
  split; [apply reach_new|]. split; [reflexivity|].
  apply (@X14_stop_when_idle (new_SoundEngine env0) (reach_new env0) eq_refl).
Defined.

(** *** The notes of a tick *)

Lemma picked_in_scale (w : World) (p : nat) :
  In (picked scaleHigh w p) scaleHigh /\ In (picked scaleLow w p) scaleLow.
Proof.
  destruct (loop_picks_in_range (random w p)) as [H L].
  unfold picked, index. split; apply nth_In; assumption.
Qed.

(** X13: a tick only plays notes of the two scales.  Every oscillator that
    one run of [loop] adds on a playing engine starts at the current audio
    time and is either a sine at a frequency of [scaleHigh], stopped 0.6 s
    later, or a triangle at a frequency of [scaleLow], stopped 0.5 s later:
    the random index never falls outside its scale. *)
Theorem X13_tick_plays_scale_notes (w : World) (nd : AudioNode) :
  isPlaying w = true ->
  In nd (created w (exec loop w)) -> kind nd = OscillatorNode ->
  startAt nd = Some (currentTime w) /\
  ((type nd = "sine"%string /\ In (value (param nd)) scaleHigh /\
    stopAt nd = Some (currentTime w + 0.6)) \/
   (type nd = "triangle"%string /\ In (value (param nd)) scaleLow /\
    stopAt nd = Some (currentTime w + 0.5))).
Proof.
  intros P Hin K.
  rewrite (@created_app w (exec loop w) (tick_nodes w) (loop_nodes w P)) in Hin.
  unfold tick_nodes in Hin. apply in_app_or in Hin. destruct Hin as [Hin|Hin].
  - unfold melody_nodes in Hin. destruct (_ && _); [|destruct Hin].
    destruct Hin as [<-|[<-|[]]]; [|discriminate K].
    split; [reflexivity|]. left. split; [reflexivity|]. split; [|reflexivity].
    apply picked_in_scale.
  - unfold bass_nodes in Hin. destruct (_ && _); [|destruct Hin].
    destruct Hin as [<-|[<-|[<-|[]]]]; [|discriminate K|discriminate K].
    split; [reflexivity|]. right. split; [reflexivity|]. split; [|reflexivity].
    apply picked_in_scale.
Qed.

Lemma X13_witness :
  isPlaying w_running = true /\
  In (pluck_osc 698.46 0) (created w_running (exec loop w_running)) /\
  In (value (param (pluck_osc 698.46 0))) scaleHigh.
Proof.
  assert (P : isPlaying w_running = true) by (vm_compute; reflexivity).
  assert (I : In (pluck_osc 698.46 0) (created w_running (exec loop w_running))).
  { vm_compute. left. reflexivity. }
  split; [exact P|]. split; [exact I|].
  destruct (@X13_tick_plays_scale_notes w_running (pluck_osc 698.46 0) P I eq_refl)
    as [_ [(_ & H & _)|(H & _)]]; [exact H | discriminate H].
Defined.

(** *** The tempo *)

Lemma quiet_step_playing (l : Label) (w w1 : World) :
  isPlaying w = true -> no_stop l = true -> is_fire l = false -> step l w = Some w1 ->
  isPlaying w1 = true /\ pending w1 = pending w /\ (Date_now w <= Date_now w1)%Z.
Proof.
  intros P N F S. destruct l as [c|ms dt|id]; [| |discriminate F]; cbn [step] in S.
  - injection S as <-.
    assert (Hc : c <> call_stopMusic) by (intros ->; discriminate N).
    destruct (@call_playing c w Hc P) as (_ & B & C).
    split; [exact C|]. split; [exact B|].
    assert (D : Date_now (exec (do_call c) w) = Date_now w).
    { assert (Q : forall m : M unit, quiet_effect m -> Date_now (exec m w) = Date_now w).
      { intros m Hm. destruct (Hm w) as (_ & [s1 s2 s3 s4 s5 s6 s7] & _). exact s1. }
      destruct c; cbn [do_call].
      - unfold exec. rewrite (startMusic_running w P). reflexivity.
      - congruence.
      - rewrite exec_seq. unfold exec at 1. cbn [ret snd]. unfold exec.
        destruct (muted w) eqn:Hm.
        + rewrite (toggleMute_unmute w Hm), P. reflexivity.
        + rewrite (toggleMute_mute w Hm). reflexivity.
      - apply Q, playPluck_effect.
      - apply Q, playBass_effect.
      - apply Q, playSnap_effect.
      - apply Q, playScrambleNoise_effect.
      - apply Q, playServo_effect.
      - apply Q, playHover_effect.
      - apply Q, playSuccess_effect. }
    rewrite D. lia.
  - destruct (0 <=? ms)%Z eqn:Hms; [|discriminate].
    destruct (Qle_bool 0 dt); [|discriminate]. cbn [andb] in S. injection S as <-.
    apply Z.leb_le in Hms. cbn. repeat split; [exact P | lia].
Qed.

Lemma quiet_run_playing (ls : list Label) :
  forall w w1, isPlaying w = true -> forallb no_stop ls = true -> fires ls = 0%nat ->
               run ls w = Some w1 ->
               isPlaying w1 = true /\ pending w1 = pending w /\ (Date_now w <= Date_now w1)%Z.
Proof.
  induction ls as [|l r IH]; intros w w1 P N F R.
  - injection R as <-. repeat split; [exact P | lia].
  - cbn [forallb] in N. apply andb_prop in N. destruct N as [N1 N2].
    assert (F1 : is_fire l = false /\ fires r = 0%nat).
    { unfold fires in *. cbn [filter] in F. destruct (is_fire l); [discriminate F | auto]. }
    destruct F1 as [F1 F2].
    cbn [run] in R. destruct (step l w) as [w0|] eqn:S; [|discriminate].
    destruct (@quiet_step_playing l w w0 P N1 F1 S) as (P0 & E0 & D0).
    destruct (IH w0 w1 P0 N2 F2 R) as (P1 & E1 & D1).
    split; [exact P1|]. split; [congruence | lia].
Qed.

(** X21: the tempo is never faster than one tick per 150 ms.  When a tick
    runs at wall-clock time [t] it schedules the next one for [t + 150];
    as long as [stopMusic] is not called, nothing else changes the timer
    queue, so the next tick cannot run before the wall clock reads
    [t + 150], whatever is called and however time passes in between. *)
Theorem X21_ticks_150ms_apart (w w1 w2 w3 : World) (id id2 : nat) (ls : list Label) :
  reachable w ->
  step (LFire id) w = Some w1 ->
  forallb no_stop ls = true -> fires ls = 0%nat -> run ls w1 = Some w2 ->
  step (LFire id2) w2 = Some w3 ->
  pending w1 = [(next_timer w, (Date_now w + 150)%Z)] /\
  id2 = next_timer w /\
  (Date_now w + 150 <= Date_now w2)%Z.
Proof.
  intros R S1 N F Hrun S2.
  pose proof (reachable_OneTick R) as O. unfold OneTick in O.
  cbn [step] in S1. destruct (due_of id w) as [due|] eqn:D; [|discriminate].
  destruct (due <=? Date_now w)%Z; [|discriminate]. injection S1 as <-.
  apply due_of_In in D.
  destruct (isPlaying w) eqn:P; [|rewrite O in D; destruct D].
  destruct O as (id0 & due0 & E & _). rewrite E in D. destruct D as [D|[]]. injection D as -> ->.
  destruct (fire_playing id w P) as (_ & P1 & E1).
  rewrite E in E1. cbn [filter fst] in E1. rewrite Nat.eqb_refl in E1. cbn [negb app] in E1.
  destruct (@quiet_run_playing ls _ w2 P1 N F Hrun) as (P2 & E2 & D2).
  split; [exact E1|].
  cbn [step] in S2. destruct (due_of id2 w2) as [due2|] eqn:D3; [|discriminate].
  destruct (due2 <=? Date_now w2)%Z eqn:Le; [|discriminate].
  apply due_of_In in D3. rewrite E2, E1 in D3. destruct D3 as [D3|[]].
  injection D3 as <- <-. apply Z.leb_le in Le. unfold tempo in Le. split; [reflexivity | lia].
Qed.

Lemma reachable_due : reachable w_due.
Proof.
  apply (@reach_step (LElapse 150 0) w_running); [exact reachable_running|].
  vm_compute. reflexivity.
Qed.

Lemma X21_witness :
  reachable w_due /\
  exists w1 w2 w3,
    step (LFire 1) w_due = Some w1 /\
    run [LCall call_playHover; LElapse 150 0] w1 = Some w2 /\
    step (LFire 2) w2 = Some w3 /\
    (Date_now w_due + 150 <= Date_now w2)%Z.
Proof.
  split; [exact reachable_due|].
  do 3 eexists.
  split; [vm_compute; reflexivity|]. split; [vm_compute; reflexivity|].
  split; [vm_compute; reflexivity|].
  match goal with
  | |- (_ <= Date_now ?w2)%Z =>
      eapply (@X21_ticks_150ms_apart w_due _ w2 _ 1%nat 2%nat
                [LCall call_playHover; LElapse 150 0] reachable_due)
  end.
  - vm_compute. reflexivity.
  - reflexivity.
  - reflexivity.
  - vm_compute. reflexivity.
  - vm_compute. reflexivity.
Defined.

(* ================================================================== *)
(** ** Shape of the audio graph *)
(* ================================================================== *)

Lemma flows_mono (k : nat) (es es1 : list (nat * nat)) (avoid : nat) :
  (forall e, In e es -> In e es1) ->
  forall a d, flows k es avoid a d = true -> flows k es1 avoid a d = true.
Proof.
  intros Sub. induction k as [|k IH]; intros a d H; cbn [flows] in *.
  - exact H.
  - destruct (Nat.eqb a avoid); [discriminate|].
    destruct (Nat.eqb a d); [reflexivity|].
    apply existsb_exists in H. destruct H as (e & Hin & He).
    apply existsb_exists. exists e. split; [apply Sub; exact Hin|].
    apply andb_prop in He. destruct He as [H1 H2]. rewrite H1. cbn [andb].
    apply IH. exact H2.
Qed.

(** No signal of a node assigned to a bus gets round that bus. *)
Lemma flows_blocked (f : nat -> nat) (ns : list AudioNode) (es : list (nat * nat)) :
  assigns f ns es ->
  forall k i, (3 <= i)%nat -> flows k es (f i) i 0 = false.
Proof.
  intros [R E _]. induction k as [|k IH]; intros i Hi; cbn [flows].
  - destruct (Nat.eqb i (f i)); [reflexivity|].
    destruct (Nat.eqb i 0) eqn:Z; [apply Nat.eqb_eq in Z; lia | reflexivity].
  - destruct (Nat.eqb i (f i)); [reflexivity|].
    destruct (Nat.eqb i 0) eqn:Z; [apply Nat.eqb_eq in Z; lia|].
    destruct (existsb _ es) eqn:X; [|reflexivity].
    apply existsb_exists in X. destruct X as ([a c] & Hin & He). cbn [fst snd] in He.
    apply andb_prop in He. destruct He as [H1 H2]. apply Nat.eqb_eq in H1. subst a.
    destruct (E i c Hin) as (_ & _ & [[[A|A] _]|[_ [C|[C1 C2]]]]); try lia.
    + subst c. destruct k; cbn [flows] in H2; rewrite Nat.eqb_refl in H2; discriminate.
    + rewrite <- C2 in H2. rewrite (IH c C1) in H2. discriminate.
Qed.

Lemma scheduled_same_shape (a b : AudioNode) : same_shape a b -> scheduled a -> scheduled b.
Proof.
  intros (K & S & E & B). unfold scheduled. rewrite K, S, E, B. auto.
Qed.

Lemma same_shape_refl (l : list AudioNode) : Forall2 same_shape l l.
Proof. induction l; constructor; auto. repeat split. Qed.

Lemma same_shape_upd (f : AudioParam -> AudioParam) (l : list AudioNode) :
  forall i, Forall2 same_shape l (upd i (on_param f) l).
Proof.
  induction l as [|x r IH]; intros [|i]; cbn [upd]; constructor; auto.
  - repeat split.
  - apply same_shape_refl.
  - repeat split.
Qed.

Lemma same_shape_nth (l l1 : list AudioNode) :
  Forall2 same_shape l l1 ->
  forall i nd, nth_error l1 i = Some nd ->
               exists nd0, nth_error l i = Some nd0 /\ is_source nd0 = is_source nd.
Proof.
  induction 1 as [|a b l l1 S F IH]; intros [|i] nd H; cbn [nth_error] in *; try discriminate.
  - injection H as <-. exists a. split; [reflexivity|].
    destruct S as (K & _). unfold is_source. rewrite K. reflexivity.
  - apply IH. exact H.
Qed.

Lemma Wired_same_shape (ns ns1 : list AudioNode) (es : list (nat * nat)) :
  Forall2 same_shape ns ns1 -> Wired ns es -> Wired ns1 es.
Proof.
  intros F [S (f & [R E P])]. pose proof (Forall2_length F) as L. split.
  - clear - F S. induction F as [|a b l l1 H F IH]; [constructor|].
    inversion S; subst. constructor; [eapply scheduled_same_shape; eassumption | auto].
  - exists f. split.
    + exact R.
    + intros a c Hin. rewrite <- L. apply E. exact Hin.
    + intros i nd Hn Hs. destruct (same_shape_nth F i Hn) as (nd0 & H0 & S0).
      apply (P i nd0 H0). congruence.
Qed.

Lemma assigns_batch (f : nat -> nat) (ns grp : list AudioNode) (es es1 : list (nat * nat))
      (b : nat) :
  assigns f ns es -> (3 <= List.length ns)%nat -> b = 1%nat \/ b = 2%nat ->
  In (b, 0%nat) es -> batch (List.length ns) b grp es1 ->
  assigns (fun i => if i <? List.length ns then f i else b) (ns ++ grp) (es ++ es1).
Proof.
  intros [R E P] L Hb Hin0 [_ BE BP]. set (n := List.length ns) in *. split.
  - intros i. destruct (i <? n); [apply R | exact Hb].
  - intros a c Hin. rewrite length_app. fold n. apply in_app_or in Hin.
    destruct Hin as [Hin|Hin].
    + destruct (E a c Hin) as (A & C & K). split; [lia|]. split; [lia|].
      destruct K as [K|(K1 & K2)]; [left; exact K | right].
      split; [exact K1|].
      replace (a <? n) with true by (symmetry; apply Nat.ltb_lt; exact A).
      destruct K2 as [K2|(K2 & K3)]; [left; exact K2 | right].
      replace (c <? n) with true by (symmetry; apply Nat.ltb_lt; exact C). auto.
    + destruct (BE a c Hin) as (A & C). split; [lia|]. split; [destruct C; lia|].
      right. split; [lia|].
      replace (a <? n) with false by (symmetry; apply Nat.ltb_ge; lia).
      destruct C as [C|C]; [left; exact C | right].
      replace (c <? n) with false by (symmetry; apply Nat.ltb_ge; lia). split; [lia | reflexivity].
  - intros i nd Hn Hs. destruct (Nat.ltb_spec i n) as [Hi|Hi].
    + rewrite nth_error_app1 in Hn by exact Hi.
      destruct (P i nd Hn Hs) as (A & F). split; [exact A|].
      eapply flows_mono; [|exact F]. intros e He. apply in_or_app. left. exact He.
    + rewrite nth_error_app2 in Hn by exact Hi. fold n in Hn. split; [lia|].
      replace i with (n + (i - n))%nat by lia. eapply BP; eassumption.
Qed.

Lemma Wired_batch (ns grp : list AudioNode) (es es1 : list (nat * nat)) (b : nat) :
  Wired ns es -> (3 <= List.length ns)%nat -> b = 1%nat \/ b = 2%nat ->
  In (b, 0%nat) es -> batch (List.length ns) b grp es1 ->
  Wired (ns ++ grp) (es ++ es1).
Proof.
  intros [S (f & A)] L Hb Hin0 B. split.
  - apply Forall_app. split; [exact S | apply B].
  - eexists. eapply assigns_batch; eassumption.
Qed.

(** A source node added by a batch is heard through the bus of the batch and
    through it alone. *)
Lemma batch_routes (ns grp : list AudioNode) (es es1 : list (nat * nat)) (b : nat) :
  Wired ns es -> (3 <= List.length ns)%nat -> b = 1%nat \/ b = 2%nat ->
  In (b, 0%nat) es -> batch (List.length ns) b grp es1 ->
  forall i nd, (List.length ns <= i)%nat -> nth_error (ns ++ grp) i = Some nd ->
               is_source nd = true ->
               flows 4 (es ++ es1) (other_bus b) i 0 = true /\
               forall k, flows k (es ++ es1) b i 0 = false.
Proof.
  intros [S (f & A)] L Hb Hin0 B i nd Hi Hn Hs.
  pose proof (assigns_batch A L Hb Hin0 B) as A1.
  set (f1 := fun i => if i <? List.length ns then f i else b) in A1.
  assert (F : f1 i = b).
  { subst f1. cbv beta. replace (i <? List.length ns) with false; [reflexivity|].
    symmetry. apply Nat.ltb_ge. exact Hi. }
  destruct (as_sources A1 i Hn Hs) as (I3 & Fl). rewrite F in Fl.
  split; [exact Fl|]. intros k. rewrite <- F. eapply flows_blocked; eassumption.
Qed.

(** *** What each method adds *)

Ltac sched_one :=
  unfold scheduled; cbn [kind startAt stopAt buffer];
  first [ split; reflexivity
        | do 2 eexists; split; [reflexivity | split; [reflexivity | apply Qlt_add_pos; reflexivity]]
        | split; [eexists; reflexivity | split; [reflexivity | discriminate]] ].

Ltac batch_scheduled :=
  cbn [flat_map seq app blip_nodes chord_nodes snap_nodes servo_nodes hover_nodes
       combine chord fst snd];
  repeat (apply Forall_cons; [sched_one|]); apply Forall_nil.

Ltac batch_edges :=
  let a := fresh "a" in let c := fresh "c" in let Hin := fresh "Hin" in
  intros a c Hin; cbn [In flat_map seq app pair_edges snap_edges servo_edges Nat.mul Nat.add] in Hin;
  cbn [List.length flat_map seq app blip_nodes chord_nodes snap_nodes servo_nodes hover_nodes
       combine chord fst snd];
  repeat (destruct Hin as [Hin|Hin]; [injection Hin as <- <-; lia|]);
  destruct Hin.

Ltac hop :=
  eapply flows_step;
  [ first [ apply in_or_app; right; cbn [In]; repeat first [left; reflexivity | right]; fail
          | apply in_or_app; left; eassumption ]
  | lia
  | ].

Ltac batch_paths :=
  let j := fresh "j" in let nd := fresh "nd" in let old := fresh "old" in
  let Hn := fresh "Hn" in let Hs := fresh "Hs" in let H0 := fresh "H0" in
  intros j nd old Hn Hs H0;
  cbn [flat_map seq app pair_edges snap_edges servo_edges Nat.mul Nat.add other_bus Nat.eqb];
  cbn [flat_map seq app blip_nodes chord_nodes snap_nodes servo_nodes hover_nodes
       combine chord fst snd] in Hn;
  repeat (destruct j as [|j];
          [ cbn [nth_error] in Hn; injection Hn as <-;
            first [ discriminate Hs
                  | rewrite ?Nat.add_0_r; repeat hop; apply flows_here; lia ]
          | ]);
  cbn [nth_error] in Hn; destruct j; discriminate Hn.

Ltac batch_solve :=
  cbv beta delta [snap_nodes servo_nodes hover_nodes chord snap_edges servo_edges
                  pair_edges blip_nodes chord_nodes];
  cbn [flat_map seq app combine fst snd Nat.mul Nat.add];
  split; [batch_scheduled | batch_edges | batch_paths].

Lemma batch_nil (n bus : nat) : batch n bus [] [].
Proof.
  split; [constructor | intros a c [] |].
  intros [|j] nd old H; discriminate H.
Qed.

Lemma batch_pluck (n : nat) (freq time volume : Q) :
  (3 <= n)%nat ->
  batch n 2 [pluck_osc freq time; pluck_gain time volume] [(n, n + 1); (n + 1, 2)]%nat.
Proof.
  intros L. batch_solve.
Qed.

Lemma batch_bass (n : nat) (freq time : Q) :
  (3 <= n)%nat ->
  batch n 2 [bass_osc freq time; bass_gain time; bass_filter]
        [(n, n + 2); (n + 2, n + 1); (n + 1, 2)]%nat.
Proof.
  intros L. batch_solve.
Qed.

Lemma batch_snap (n : nat) (t : Q) (data : list Q) :
  (3 <= n)%nat -> batch n 1 (snap_nodes t data) (snap_edges n 1).
Proof.
  intros L. batch_solve.
Qed.

Lemma batch_servo (n : nat) (t : Q) :
  (3 <= n)%nat -> batch n 1 (servo_nodes t) (servo_edges n 1).
Proof.
  intros L. batch_solve.
Qed.

Lemma batch_hover (n : nat) (t : Q) :
  (3 <= n)%nat -> batch n 1 (hover_nodes t) (pair_edges n 1 0).
Proof.
  intros L. batch_solve.
Qed.

Lemma batch_scramble (n : nat) (t : Q) (r : nat -> Q) :
  (3 <= n)%nat ->
  batch n 1 (flat_map (fun i => blip_nodes t (r i) i) (seq 0 8))
        (flat_map (pair_edges n 1) (seq 0 8)).
Proof.
  intros L. batch_solve.
Qed.

Lemma batch_success (n : nat) (t : Q) :
  (3 <= n)%nat ->
  batch n 1 (flat_map (fun fi => chord_nodes t (fst fi) (snd fi)) (combine chord (seq 0 4)))
        (flat_map (pair_edges n 1) (seq 0 4)).
Proof.
  intros L. batch_solve.
Qed.

(** *** The invariant along a run *)

Lemma play_batch (c : Call) (w : World) :
  is_play c = true -> GraphInv w -> muted w = false ->
  exists grp es,
    nodes (exec (do_call c) w) = nodes w ++ grp /\
    edges (exec (do_call c) w) = edges w ++ es /\
    batch (List.length (nodes w)) (bus_of_call c) grp es /\
    (0 < List.length (filter is_source grp))%nat.
Proof.
  intros Hc [gm gu gn _ _ _] Hm.
  destruct c; try discriminate Hc; cbn [do_call bus_of_call].
  - rewrite (playPluck_eq freq time volume w Hm). cbn zeta. rewrite gu.
    do 2 eexists. split; [reflexivity|]. split; [reflexivity|].
    split; [apply batch_pluck; exact gn | cbn; lia].
  - rewrite (playBass_eq freq time w Hm). cbn zeta. rewrite gu.
    do 2 eexists. split; [reflexivity|]. split; [reflexivity|].
    split; [apply batch_bass; exact gn | cbn; lia].
  - rewrite (playSnap_eq w Hm), gm.
    do 2 eexists. split; [reflexivity|]. split; [reflexivity|].
    split; [apply batch_snap; exact gn | cbn; lia].
  - rewrite (playScrambleNoise_eq w Hm), gm.
    do 2 eexists. split; [reflexivity|]. split; [reflexivity|].
    split; [apply (@batch_scramble _ _ (fun i => draw (random w (i + rpos w)))); exact gn
           | cbn; lia].
  - rewrite (playServo_eq w Hm), gm.
    do 2 eexists. split; [reflexivity|]. split; [reflexivity|].
    split; [apply batch_servo; exact gn | cbn; lia].
  - rewrite (playHover_eq w Hm), gm.
    do 2 eexists. split; [reflexivity|]. split; [reflexivity|].
    split; [apply batch_hover; exact gn | cbn; lia].
  - rewrite (playSuccess_eq w Hm), gm.
    do 2 eexists. split; [reflexivity|]. split; [reflexivity|].
    split; [apply batch_success; exact gn | cbn; lia].
Qed.

Lemma bus_of_call_range (c : Call) : bus_of_call c = 1%nat \/ bus_of_call c = 2%nat.
Proof. destruct c; cbn; auto. Qed.

Lemma bus_out (c : Call) (w : World) : GraphInv w -> In (bus_of_call c, 0%nat) (edges w).
Proof. intros [_ _ _ o1 o2 _]. destruct c; cbn; assumption. Qed.

Lemma GraphInv_fields (w w1 : World) :
  masterGain w1 = masterGain w -> musicGain w1 = musicGain w ->
  nodes w1 = nodes w -> edges w1 = edges w -> GraphInv w -> GraphInv w1.
Proof.
  intros M U N E [gm gu gn o1 o2 gb]. split; rewrite ?M, ?U, ?N, ?E; assumption.
Qed.

Lemma WiredInv_play (c : Call) (w : World) :
  is_play c = true -> GraphInv w -> WiredInv w -> WiredInv (exec (do_call c) w).
Proof.
  intros Hc G W. destruct (muted w) eqn:Hm.
  - unfold exec. rewrite play_muted; [exact W | exact Hm | | |];
      intros ->; discriminate Hc.
  - destruct (play_batch c Hc G Hm) as (grp & es & N & E & B & _).
    unfold WiredInv. rewrite N, E.
    apply (@Wired_batch _ _ _ _ (bus_of_call c)); try assumption.
    + apply G.
    + apply bus_of_call_range.
    + apply bus_out. exact G.
Qed.

Lemma WiredInv_retarget (id : nat) (e : AutomationEvent) (w : World) :
  WiredInv w -> WiredInv (retarget id e w).
Proof.
  intros W. unfold WiredInv, retarget. cbn [nodes edges set_nodes].
  eapply Wired_same_shape; [apply same_shape_upd | exact W].
Qed.

Lemma layerA_cases (now : Q) (w : World) :
  exists r, exec (layerA now) w = set_rpos r w \/
            exists f, exec (layerA now) w = exec (playPluck f now 0.08) (set_rpos r w).
Proof.
  unfold layerA, exec. rewrite bind_eq. cbn [Math_random fst snd].
  destruct (negb _).
  - rewrite bind_eq. unfold random_index. rewrite !bind_eq. cbn [Math_random ret fst snd].
    eexists. right. eexists. reflexivity.
  - eexists. left. reflexivity.
Qed.

Lemma layerB_cases (now : Q) (w : World) :
  exec (layerB now) w = w \/
  exists r f, exec (layerB now) w = exec (playBass f now) (set_rpos r w).
Proof.
  unfold layerB, exec. rewrite bind_eq. cbn [get fst snd].
  destruct (bass_gate _).
  - rewrite bind_eq. unfold random_index. rewrite !bind_eq. cbn [Math_random ret fst snd].
    right. do 2 eexists. reflexivity.
  - left. reflexivity.
Qed.

Lemma WiredInv_layers (now : Q) (w : World) :
  GraphInv w -> WiredInv w -> WiredInv (exec (layerB now) (exec (layerA now) w)).
Proof.
  intros G W.
  assert (G1 : GraphInv (exec (layerA now) w)).
  { eapply GraphInv_grows; [exact G | apply layerA_effect]. }
  assert (W1 : WiredInv (exec (layerA now) w)).
  { destruct (layerA_cases now w) as (r & [E|(f & E)]); rewrite E.
    - exact W.
    - apply (@WiredInv_play (call_playPluck f now 0.08) (set_rpos r w)); [reflexivity | | exact W].
      eapply GraphInv_fields; [| | | | exact G]; reflexivity. }
  destruct (layerB_cases now (exec (layerA now) w)) as [E|(r & f & E)]; rewrite E.
  - exact W1.
  - apply (@WiredInv_play (call_playBass f now) (set_rpos r (exec (layerA now) w)));
      [reflexivity | | exact W1].
    eapply GraphInv_fields; [| | | | exact G1]; reflexivity.
Qed.

Lemma WiredInv_loop (w : World) : GraphInv w -> WiredInv w -> WiredInv (exec loop w).
Proof.
  intros G W. destruct (isPlaying w) eqn:P.
  - rewrite (loop_playing w P), schedule_next_eq.
    apply (WiredInv_layers (currentTime w) G W).
  - unfold exec. rewrite (loop_idle w P). exact W.
Qed.

Lemma WiredInv_startMusic (w : World) :
  GraphInv w -> WiredInv w -> WiredInv (exec startMusic w).
Proof.
  intros G W. destruct (isPlaying w) eqn:P.
  - unfold exec. rewrite (startMusic_running w P). exact W.
  - rewrite (startMusic_idle w P). apply WiredInv_loop.
    + eapply GraphInv_grows; [|apply retarget_grows].
      eapply GraphInv_grows; [|apply retarget_grows].
      eapply GraphInv_fields; [| | | | exact G]; reflexivity.
    + apply WiredInv_retarget. apply WiredInv_retarget. exact W.
Qed.

Lemma WiredInv_toggleMute (w : World) :
  GraphInv w -> WiredInv w -> WiredInv (exec toggleMute w).
Proof.
  intros G W. unfold exec. destruct (muted w) eqn:Hm.
  - rewrite (toggleMute_unmute w Hm). cbn [snd].
    set (w1 := retarget (masterGain w) _ (set_muted false w)).
    assert (G1 : GraphInv w1).
    { subst w1. eapply GraphInv_grows; [|apply retarget_grows].
      eapply GraphInv_fields; [| | | | exact G]; reflexivity. }
    assert (W1 : WiredInv w1).
    { subst w1. apply WiredInv_retarget. exact W. }
    apply WiredInv_retarget.
    destruct (isPlaying w); [exact W1 | apply WiredInv_startMusic; assumption].
  - rewrite (toggleMute_mute w Hm). cbn [snd].
    apply WiredInv_retarget. apply WiredInv_retarget. exact W.
Qed.

Lemma WiredInv_call (c : Call) (w : World) :
  GraphInv w -> WiredInv w -> WiredInv (exec (do_call c) w).
Proof.
  intros G W. destruct (is_play c) eqn:Hc; [apply WiredInv_play; assumption|].
  destruct c; try discriminate Hc; cbn [do_call].
  - apply WiredInv_startMusic; assumption.
  - rewrite stopMusic_eq.
    apply (@WiredInv_retarget (musicGain w) (SetTargetAtTime 0 (currentTime w) 0.5) w W).
  - rewrite exec_seq. unfold exec at 1. cbn [ret snd]. apply WiredInv_toggleMute; assumption.
Qed.

Lemma WiredInv_step (l : Label) (w w1 : World) :
  step l w = Some w1 -> GraphInv w -> WiredInv w -> WiredInv w1.
Proof.
  intros S G W. destruct l as [c|ms dt|id]; cbn [step] in S.
  - injection S as <-. apply WiredInv_call; assumption.
  - destruct (_ && _); [|discriminate]. injection S as <-. exact W.
  - destruct (due_of id w); [|discriminate].
    destruct (_ <=? _)%Z; [|discriminate]. injection S as <-.
    rewrite exec_seq. apply WiredInv_loop; [|exact W].
    eapply GraphInv_fields; [| | | | exact G]; reflexivity.
Qed.

Lemma new_SoundEngine_wired (e : Env) : WiredInv (new_SoundEngine e).
Proof.
  split.
  - repeat (apply Forall_cons; [split; reflexivity|]). apply Forall_nil.
  - exists (fun _ => 1%nat). split.
    + intros i. left. reflexivity.
    + intros a c Hin. cbn in Hin. unfold destination in Hin.
      destruct Hin as [H|[H|[]]]; injection H as <- <-;
        (split; [cbn; lia|]); (split; [cbn; lia|]); left; split; auto.
    + intros [|[|[|i]]] nd H Hs; cbn in H;
        [injection H as <-; discriminate Hs ..|destruct i; discriminate H].
Qed.

Lemma reachable_wired (w : World) : reachable w -> WiredInv w.
Proof.
  induction 1 as [e | l w w1 R W S].
  - apply new_SoundEngine_wired.
  - destruct (reachable_inv R) as [G _]. eapply WiredInv_step; eassumption.
Qed.

(** *** Properties of the graph *)

Lemma play_routes (c : Call) (w : World) :
  is_play c = true -> reachable w -> muted w = false ->
  let w1 := exec (do_call c) w in
  (notes w < notes w1)%nat /\
  forall i nd, (List.length (nodes w) <= i)%nat -> nth_error (nodes w1) i = Some nd ->
               is_source nd = true ->
               flows 4 (edges w1) (other_bus (bus_of_call c)) i 0 = true /\
               forall k, flows k (edges w1) (bus_of_call c) i 0 = false.
Proof.
  intros Hc R Hm w1. subst w1.
  destruct (reachable_inv R) as [G _]. pose proof (reachable_wired R) as W.
  destruct (play_batch c Hc G Hm) as (grp & es & N & E & B & S).
  split.
  - rewrite (@notes_app w _ grp N). lia.
  - intros i nd Hi Hn Hs. rewrite E. rewrite N in Hn.
    eapply (@batch_routes (nodes w) grp (edges w) es (bus_of_call c) W);
      [apply G | apply bus_of_call_range | apply bus_out; exact G
      | exact B | exact Hi | exact Hn | exact Hs].
Qed.

(** X10: every sound ends by itself.  In every state of the engine each
    oscillator of the graph has been started and has been given a stop time
    later than its start time; each buffer source has been given a buffer
    and started, and is never stopped, so it plays its buffer once to the
    end; and no other node is ever started or stopped. *)
Theorem X10_every_sound_ends (w : World) (nd : AudioNode) :
  reachable w -> In nd (nodes w) ->
  (kind nd = OscillatorNode ->
   exists s e, startAt nd = Some s /\ stopAt nd = Some e /\ s < e) /\
  (kind nd = BufferSourceNode ->
   (exists s, startAt nd = Some s) /\ stopAt nd = None /\ buffer nd <> None) /\
  (is_source nd = false -> startAt nd = None /\ stopAt nd = None).
Proof.
  intros R Hin. destruct (reachable_wired R) as [S _].
  rewrite Forall_forall in S. specialize (S nd Hin).
  unfold scheduled in S. unfold is_source.
  destruct (kind nd); (split; [intros K | split; intros K]);
    try discriminate K; exact S.
Qed.

Lemma X10_witness :
  reachable w_running /\ In (pluck_osc 698.46 0) (nodes w_running) /\
  exists s e, startAt (pluck_osc 698.46 0) = Some s /\
              stopAt (pluck_osc 698.46 0) = Some e /\ s < e.
Proof.
  assert (I : In (pluck_osc 698.46 0) (nodes w_running)).
  { vm_compute. do 3 right. left. reflexivity. }
  split; [exact reachable_running|]. split; [exact I|].
  destruct (@X10_every_sound_ends w_running (pluck_osc 698.46 0) reachable_running I)
    as (H & _).
  apply H. reflexivity.
Defined.

(** X11: shape of the audio graph in every state of the engine.  Every
    connection joins two existing nodes; the destination is fed by the two
    buses and by nothing else; and every source node is heard through
    exactly one bus: either it reaches the destination by a path that avoids
    the music bus and by no path that avoids the master bus, or the other way
    round. *)
Theorem X11_every_source_on_one_bus (w : World) :
  reachable w ->
  (forall a c, In (a, c) (edges w) ->
               (a < List.length (nodes w))%nat /\ (c < List.length (nodes w))%nat) /\
  (forall a, In (a, destination) (edges w) -> a = masterGain w \/ a = musicGain w) /\
  (forall i nd, nth_error (nodes w) i = Some nd -> is_source nd = true ->
     (flows 4 (edges w) (musicGain w) i destination = true /\
      forall k, flows k (edges w) (masterGain w) i destination = false) \/
     (flows 4 (edges w) (masterGain w) i destination = true /\
      forall k, flows k (edges w) (musicGain w) i destination = false)).
Proof.
  intros R. destruct (reachable_inv R) as [[gm gu gn _ _ _] _].
  destruct (reachable_wired R) as [_ (f & A)]. rewrite gm, gu. unfold destination.
  split; [|split].
  - intros a c Hin. destruct (as_edges A a c Hin) as (H1 & H2 & _). auto.
  - intros a Hin. destruct (as_edges A a 0%nat Hin) as (_ & _ & [[H _]|(H1 & [H2|[H2 _]])]).
    + exact H.
    + destruct (as_range A a); lia.
    + lia.
  - intros i nd Hn Hs. destruct (as_sources A i Hn Hs) as (I3 & F).
    pose proof (flows_blocked A) as Bl.
    destruct (as_range A i) as [E|E]; rewrite E in F; cbn [other_bus Nat.eqb] in F.
    + left. split; [exact F|]. intros k. rewrite <- E. apply Bl. exact I3.
    + right. split; [exact F|]. intros k. rewrite <- E. apply Bl. exact I3.
Qed.

Lemma X11_witness :
  reachable w_running /\
  forall a, In (a, destination) (edges w_running) ->
            a = masterGain w_running \/ a = musicGain w_running.
Proof.
  split; [exact reachable_running|].
  apply (X11_every_source_on_one_bus reachable_running).
Defined.

Lemma one_shot_call (m : M unit) :
  In m one_shots -> exists c, m = do_call c /\ is_play c = true /\ bus_of_call c = 1%nat.
Proof.
  intros H. cbn in H.
  destruct H as [<-|[<-|[<-|[<-|[<-|[]]]]]];
    [exists call_playSnap | exists call_playScrambleNoise | exists call_playServo
    | exists call_playHover | exists call_playSuccess]; repeat split.
Qed.

(** X12: the master bus governs every one-shot effect.  On an unmuted
    engine each of the five one-shot triggers adds at least one source node,
    and every source node it adds reaches the destination through the master
    bus (by a path that avoids the music bus) and by no path that avoids the
    master bus: a master gain of 0 silences the effect whatever the music bus
    does. *)
Theorem X12_one_shots_through_master (m : M unit) (w : World) :
  In m one_shots -> reachable w -> muted w = false ->
  let w1 := exec m w in
  (notes w < notes w1)%nat /\
  forall i nd, (List.length (nodes w) <= i)%nat -> nth_error (nodes w1) i = Some nd ->
               is_source nd = true ->
               flows 4 (edges w1) (musicGain w) i destination = true /\
               forall k, flows k (edges w1) (masterGain w) i destination = false.
Proof.
  intros Hin R Hm. destruct (one_shot_call Hin) as (c & -> & Hc & Hb).
  destruct (reachable_inv R) as [[gm gu _ _ _ _] _]. rewrite gm, gu.
  pose proof (play_routes c Hc R Hm) as H. rewrite Hb in H. exact H.
Qed.

Lemma X12_witness :
  In playHover one_shots /\ reachable w_running /\ muted w_running = false /\
  (notes w_running < notes (exec playHover w_running))%nat.
Proof.
  assert (I : In playHover one_shots) by (do 3 right; left; reflexivity).
  split; [exact I|]. split; [exact reachable_running|]. split; [reflexivity|].
  apply (@X12_one_shots_through_master playHover w_running I reachable_running eq_refl).
Defined.

(** X16: the music bus governs every note of the sequencer.  On an unmuted
    engine every source node added by [playPluck] or [playBass] reaches the
    destination through the music bus and by no path that avoids it: the
    fade-out of the music bus in [stopMusic] and [toggleMute] acts on every
    note still sounding. *)
Theorem X16_notes_through_music (freq time volume : Q) (m : M unit) (w : World) :
  m = playPluck freq time volume \/ m = playBass freq time ->
  reachable w -> muted w = false ->
  let w1 := exec m w in
  (notes w < notes w1)%nat /\
  forall i nd, (List.length (nodes w) <= i)%nat -> nth_error (nodes w1) i = Some nd ->
               is_source nd = true ->
               flows 4 (edges w1) (masterGain w) i destination = true /\
               forall k, flows k (edges w1) (musicGain w) i destination = false.
Proof.
  intros Hc R Hm.
  destruct (reachable_inv R) as [[gm gu _ _ _ _] _]. rewrite gm, gu.
  destruct Hc as [-> | ->].
  - exact (@play_routes (call_playPluck freq time volume) w eq_refl R Hm).
  - exact (@play_routes (call_playBass freq time) w eq_refl R Hm).
Qed.

Lemma X16_witness :
  reachable w_running /\ muted w_running = false /\
  (notes w_running < notes (exec (playBass 130.81 0) w_running))%nat.
Proof.
  split; [exact reachable_running|]. split; [reflexivity|].
  apply (@X16_notes_through_music 130.81 0 0 (playBass 130.81 0) w_running
           (or_intror eq_refl) reachable_running eq_refl).
Defined.

(* ================================================================== *)
(** ** The page around the engine *)
(* ================================================================== *)

Lemma start_unless_cases (w : World) :
  exec start_unless_playing_or_muted w =
  if negb (isPlaying w) && negb (muted w) then exec startMusic w else w.
Proof.
  unfold start_unless_playing_or_muted, exec. rewrite !bind_eq. cbn [get fst snd].
  destruct (negb (isPlaying w) && negb (muted w)); reflexivity.
Qed.

Lemma start_unless_reachable (w : World) :
  reachable w -> reachable (exec start_unless_playing_or_muted w).
Proof.
  intros R. rewrite start_unless_cases. destruct (_ && _); [|exact R].
  apply (@reach_step (LCall call_startMusic) w); [exact R | reflexivity].
Qed.

Lemma toggleMute_reachable (w : World) : reachable w -> reachable (snd (toggleMute w)).
Proof.
  intros R. apply (@reach_step (LCall call_toggleMute) w); [exact R|].
  cbn [step do_call]. rewrite exec_seq. reflexivity.
Qed.

Lemma page_step_engine (ev : PageEvent) (p p1 : Page) :
  page_step ev p = Some p1 -> reachable (soundFX p) -> reachable (soundFX p1).
Proof.
  intros S R. destruct ev as [| |s| |l]; cbn [page_step] in S.
  - injection S as <-. unfold startAudioImmediately.
    destruct (ctx_state p); cbn [soundFX]; [exact R | | exact R].
    apply start_unless_reachable. exact R.
  - destruct (resumes p); [discriminate|]. injection S as <-.
    apply start_unless_reachable. exact R.
  - injection S as <-. exact R.
  - destruct (muteBtn p) as [b|]; [|discriminate].
    unfold muteBtn_click in S. pose proof (toggleMute_reachable R) as R1.
    destruct (toggleMute (soundFX p)) as [isMuted w1]. cbn [snd] in R1.
    destruct (icon b); [destruct isMuted|]; injection S as <-; exact R1.
  - destruct (page_label l); [|discriminate].
    destruct (step l (soundFX p)) as [w1|] eqn:E; [|discriminate]. injection S as <-.
    eapply reach_step; eassumption.
Qed.

Lemma page_engine_reachable (p : Page) : page_reachable p -> reachable (soundFX p).
Proof.
  induction 1 as [e s b | ev p p1 _ IH S].
  - unfold new_Page, startAudioImmediately. cbn [ctx_state soundFX].
    destruct s; cbn [soundFX].
    + apply reach_new.
    + apply start_unless_reachable. apply reach_new.
    + apply reach_new.
  - eapply page_step_engine; eassumption.
Qed.

(** *** The autostart *)

(** X17: the autostart cannot start the music twice.  Whatever happens on
    the page (any number of calls of [startAudioImmediately], fulfilled
    [resume()] promises, changes of the context state, clicks on the mute
    button, effects, ticks), the engine is in a state that calls from outside
    could have produced, and at most one [loop] callback is pending: none
    while the sequencer is idle, exactly one while it plays. *)
Theorem X17_autostart_one_loop (p : Page) :
  page_reachable p ->
  reachable (soundFX p) /\
  (isPlaying (soundFX p) = false -> pending (soundFX p) = []) /\
  (isPlaying (soundFX p) = true -> exists id due, pending (soundFX p) = [(id, due)]).
Proof.
  intros H. pose proof (page_engine_reachable H) as R.
  pose proof (reachable_OneTick R) as O. unfold OneTick in O.
  split; [exact R|]. split; intros E; rewrite E in O.
  - exact O.
  - destruct O as (id & due & P & _). exists id, due. exact P.
Qed.

Lemma page0_reachable : page_reachable page0.
Proof. apply (page_new env0 running (Some (mkButton true (Some "fas"%string)))). Qed.


Lemma X17_witness :
  page_reachable page0 /\ exists id due, pending (soundFX page0) = [(id, due)].
Proof.
  split; [exact page0_reachable|].
  destruct (X17_autostart_one_loop page0_reachable) as (_ & _ & H).
  apply H. vm_compute. reflexivity.
Defined.

(** *** The mute button *)












(** *** The music on the page *)

Lemma step_playing (l : Label) (w w1 : World) :
  TimerInv w -> isPlaying w = true -> no_stop l = true -> step l w = Some w1 ->
  isPlaying w1 = true /\
  exists new, timerIDs w1 = timerIDs w ++ new /\
              List.length new = (if is_fire l then 1 else 0)%nat.
Proof.
  intros T P N S.
  assert (R : run [l] w = Some w1) by (cbn [run]; rewrite S; reflexivity).
  assert (N1 : forallb no_stop [l] = true) by (cbn [forallb]; rewrite N; reflexivity).
  destruct (@playing_run [l] w w1 T P N1 R) as (P1 & (new & E & L) & _).
  split; [exact P1|]. exists new. split; [exact E|].
  rewrite L. unfold fires. cbn [filter]. destruct (is_fire l); reflexivity.
Qed.

Lemma page_label_no_stop (l : Label) : page_label l = true -> no_stop l = true.
Proof. destruct l as [[]| |]; cbn; congruence. Qed.

Lemma page_step_playing (ev : PageEvent) (p p1 : Page) :
  reachable (soundFX p) -> isPlaying (soundFX p) = true -> page_step ev p = Some p1 ->
  isPlaying (soundFX p1) = true /\
  exists new, timerIDs (soundFX p1) = timerIDs (soundFX p) ++ new /\
              List.length new = (if is_tick ev then 1 else 0)%nat.
Proof.
  intros R P S. destruct (reachable_inv R) as [_ T].
  assert (Same : isPlaying (soundFX p) = true /\
                 exists new, timerIDs (soundFX p) = timerIDs (soundFX p) ++ new /\
                             List.length new = 0%nat).
  { split; [exact P|]. exists []. rewrite app_nil_r. auto. }
  assert (Guard : exec start_unless_playing_or_muted (soundFX p) = soundFX p).
  { rewrite start_unless_cases, P. reflexivity. }
  destruct ev as [| |s| |l]; cbn [page_step] in S; cbn [is_tick].
  - injection S as <-. unfold startAudioImmediately.
    destruct (ctx_state p); cbn [soundFX]; rewrite ?Guard; exact Same.
  - destruct (resumes p); [discriminate|]. injection S as <-.
    cbn [soundFX]. rewrite Guard. exact Same.
  - injection S as <-. exact Same.
  - destruct (muteBtn p) as [b|]; [|discriminate]. unfold muteBtn_click in S.
    assert (K : step (LCall call_toggleMute) (soundFX p) = Some (snd (toggleMute (soundFX p)))).
    { cbn [step do_call]. rewrite exec_seq. reflexivity. }
    destruct (@step_playing (LCall call_toggleMute) _ _ T P eq_refl K) as (P1 & new & E & L).
    destruct (toggleMute (soundFX p)) as [isMuted w1]. cbn [snd] in P1, E.
    assert (Goal' : isPlaying w1 = true /\
                    exists new, timerIDs w1 = timerIDs (soundFX p) ++ new /\
                                List.length new = 0%nat).
    { split; [exact P1|]. exists new. auto. }
    destruct (icon b); [destruct isMuted|]; injection S as <-; exact Goal'.
  - destruct (page_label l) eqn:L; [|discriminate].
    destruct (step l (soundFX p)) as [w1|] eqn:E; [|discriminate]. injection S as <-.
    cbn [soundFX].
    destruct (@step_playing l _ w1 T P (page_label_no_stop l L) E) as (P1 & new & E1 & L1).
    split; [exact P1|]. exists new. split; [exact E1|].
    rewrite L1. destruct l; reflexivity.
Qed.

(** X19: on the page the music never stops and the handle list is never
    cleared.  No code of the page calls [stopMusic]: once the sequencer
    plays, it keeps playing through every further event of the page, and
    [timerIDs] keeps every handle it held and gains one for every tick, so it
    grows for as long as the page is open. *)
Theorem X19_page_music_never_stops (evs : list PageEvent) :
  forall p p1, page_reachable p -> isPlaying (soundFX p) = true ->
               page_run evs p = Some p1 ->
               isPlaying (soundFX p1) = true /\
               exists new, timerIDs (soundFX p1) = timerIDs (soundFX p) ++ new /\
                           List.length new = page_ticks evs.
Proof.
  induction evs as [|ev r IH]; intros p p1 R P Hrun.
  - injection Hrun as <-. split; [exact P|]. exists []. rewrite app_nil_r. auto.
  - cbn [page_run] in Hrun. destruct (page_step ev p) as [p0|] eqn:S; [|discriminate].
    destruct (@page_step_playing ev p p0 (page_engine_reachable R) P S)
      as (P0 & new0 & E0 & L0).
    destruct (IH p0 p1 (@page_next ev p p0 R S) P0 Hrun) as (P1 & new1 & E1 & L1).
    split; [exact P1|]. exists (new0 ++ new1). split.
    + rewrite E1, E0, app_assoc. reflexivity.
    + rewrite length_app, L0, L1. unfold page_ticks. cbn [filter].
      destruct (is_tick ev); reflexivity.
Qed.

Lemma X19_witness :
  page_reachable page0 /\ isPlaying (soundFX page0) = true /\
  exists p1,
    page_run [ev_engine (LElapse 150 0); ev_engine (LFire 1); ev_click_mute;
              ev_engine (LCall call_playHover); ev_autostart] page0 = Some p1 /\
    isPlaying (soundFX p1) = true.
Proof.
  split; [exact page0_reachable|]. split; [reflexivity|].
  eexists. split; [vm_compute; reflexivity|].
  match goal with
  | |- isPlaying (soundFX ?p1) = true =>
      apply (@X19_page_music_never_stops
               [ev_engine (LElapse 150 0); ev_engine (LFire 1%nat); ev_click_mute;
                ev_engine (LCall call_playHover); ev_autostart] page0 p1
               page0_reachable eq_refl)
  end.
  vm_compute. reflexivity.
Defined.

(* ================================================================== *)
(** ** The scramble sequence of the cube *)
(* ================================================================== *)






